(** * vidagent: the filter-file front end and the ffmpeg graph compiler

    A shallow embedding of [cmd/vidagent/main.go]: the lexer [getTokens],
    the action builder [getActions], the time and reason parsers, the
    validator [validateSegmentTimes] and the compiler [buildComplexFilter],
    together with the parts of the Go library they call.

    Conventions.
    - A Go [string] is the list of its runes ([gostring]); every string the
      program handles comes from [[]rune(scanner.Text())], so it is valid
      UTF-8 and the two views agree.
    - A Go [int] is a [Z] in the 64-bit signed range; arithmetic on values
      the input controls is wrapped with [wrap64].
    - A Go [float64] is a primitive [float] (IEEE 754 binary64). *)

From Stdlib Require Import ZArith List Bool Lia String Ascii Floats QArith Qabs Sorted.
Import ListNotations.

Local Open Scope Z_scope.

(** ** Go strings as rune lists *)

Module Go.

Definition rune := Z.
Definition gostring := list rune.

(** A string literal of the source, rune by rune (ASCII literals only). *)
Fixpoint lit (s : string) : gostring :=
  match s with
  | EmptyString => []
  | String c r => Z.of_nat (nat_of_ascii c) :: lit r
  end.

Fixpoint str_eqb (a b : gostring) : bool :=
  match a, b with
  | [], [] => true
  | x :: a', y :: b' => (x =? y) && str_eqb a' b'
  | _, _ => false
  end.

Definition is_empty (s : gostring) : bool :=
  match s with [] => true | _ => false end.

(** [unicode.IsSpace]: the Latin-1 spaces and the code points of
    property White_Space. *)
Definition IsSpace (r : rune) : bool :=
  ((9 <=? r) && (r <=? 13)) || (r =? 32) || (r =? 133) || (r =? 160)
  || (r =? 5760) || ((8192 <=? r) && (r <=? 8202))
  || (r =? 8232) || (r =? 8233) || (r =? 8239) || (r =? 8287)
  || (r =? 12288).

Fixpoint TrimLeft (s : gostring) : gostring :=
  match s with
  | c :: r => if IsSpace c then TrimLeft r else s
  | [] => []
  end.

Definition TrimRight (s : gostring) : gostring := rev (TrimLeft (rev s)).

(** [strings.TrimSpace] *)
Definition TrimSpace (s : gostring) : gostring := TrimRight (TrimLeft s).

(** [strings.Split(s, sep)] for a one-rune separator: the pieces between
    the separators, [[""]] for the empty string. *)
Fixpoint Split (sep : rune) (s : gostring) : list gostring :=
  match s with
  | [] => [[]]
  | c :: r =>
      if c =? sep then [] :: Split sep r
      else match Split sep r with
           | p :: ps => (c :: p) :: ps
           | [] => [[c]]
           end
  end.

(** [unicode.ToLower] on the runes that can matter for an ASCII key: the
    ASCII capitals, and the two other code points whose lower case is an
    ASCII letter (U+0130 to i, U+212A to k).  Every other rune outside
    ASCII is sent to a rune outside ASCII, which the model leaves in place. *)
Definition ToLowerRune (r : rune) : rune :=
  if (65 <=? r) && (r <=? 90) then r + 32
  else if r =? 304 then 105
  else if r =? 8490 then 107
  else r.

Definition ToLower (s : gostring) : gostring := map ToLowerRune s.

(** ** Go ints *)

Definition wrap64 (z : Z) : Z := (z + 2 ^ 63) mod 2 ^ 64 - 2 ^ 63.

Definition in_int64 (z : Z) : Prop := - 2 ^ 63 <= z < 2 ^ 63.

Definition is_digit (r : rune) : bool := (48 <=? r) && (r <=? 57).

(** The value of a run of decimal digits, [None] when a rune is no digit. *)
Fixpoint digits_val (acc : Z) (s : gostring) : option Z :=
  match s with
  | [] => Some acc
  | c :: r => if is_digit c then digits_val (acc * 10 + (c - 48)) r else None
  end.

Inductive NumError := ErrSyntax | ErrRange.

(** [strconv.Atoi]: an optional sign, then one decimal digit or more; the
    value has to fit an int. *)
Definition Atoi (s : gostring) : NumError + Z :=
  let '(neg, body) :=
    match s with
    | 45 :: r => (true, r)
    | 43 :: r => (false, r)
    | _ => (false, s)
    end in
  match body with
  | [] => inl ErrSyntax
  | _ =>
      match digits_val 0 body with
      | None => inl ErrSyntax
      | Some n =>
          let v := if neg then - n else n in
          if (- 2 ^ 63 <=? v) && (v <? 2 ^ 63) then inr v else inl ErrRange
      end
  end.

(** The decimal digits of a natural number, as [%d] prints them. *)
Fixpoint digits_fuel (fuel : nat) (n : Z) (acc : gostring) : gostring :=
  match fuel with
  | O => acc
  | S f =>
      let acc' := (48 + n mod 10) :: acc in
      if n <? 10 then acc' else digits_fuel f (n / 10) acc'
  end.

Definition utoa (n : Z) : gostring :=
  digits_fuel (S (Z.to_nat (Z.log2 n))) n [].

(** [fmt.Sprintf("%d", n)] *)
Definition itoa (n : Z) : gostring :=
  if n <? 0 then 45 :: utoa (- n) else utoa n.

End Go.

Export Go.

(** ** Go floats *)

Module GoFloat.

(** Nearest-even rounding of the positive rational [num/den] to a multiple
    of [2^e]: the integer [m] with [m * 2^e] nearest to [num/den]. *)
Definition round_at (num den e : Z) : Z :=
  let n := if 0 <=? e then num else num * 2 ^ (- e) in
  let d := if 0 <=? e then den * 2 ^ e else den in
  let q := n / d in
  match 2 * (n mod d) ?= d with
  | Lt => q
  | Gt => q + 1
  | Eq => if Z.even q then q else q + 1
  end.

(** [floor (log2 (num/den))] for positive [num] and [den]. *)
Definition ilog2 (num den : Z) : Z :=
  let l := Z.log2 num - Z.log2 den in
  let ge := if 0 <=? l then den * 2 ^ l <=? num else den <=? num * 2 ^ (- l) in
  if ge then l else l - 1.

(** IEEE 754 rounding to nearest, ties to even, of [(-1)^neg * num/den] in
    the format of precision [p] and exponent bound [emx]; an overflow
    gives the infinity. *)
Definition round_rat (p emx : Z) (neg : bool) (num den : Z) : spec_float :=
  if num =? 0 then S754_zero neg
  else
    let e := Z.max (ilog2 num den - p + 1) (SpecFloat.emin p emx) in
    let m := round_at num den e in
    binary_normalize p emx (if neg then - m else m) e neg.

(** [float64(n)] for an int [n]. *)
Definition of_int (n : Z) : float :=
  SF2Prim (binary_normalize prec emax n 0 false).

(** [float64(x)] for a float32 [x] held as a binary32 [spec_float]. *)
Definition of_float32 (x : spec_float) : float :=
  match x with
  | S754_finite s m e =>
      SF2Prim (binary_normalize prec emax (if s then Zneg m else Zpos m) e s)
  | _ => SF2Prim x
  end.

Definition lower (r : rune) : rune :=
  if (65 <=? r) && (r <=? 90) then r + 32 else r.

Definition hex_val (r : rune) : option Z :=
  if is_digit r then Some (r - 48)
  else let c := lower r in
       if (97 <=? c) && (c <=? 102) then Some (c - 87) else None.

(** [strconv.underscoreOK]: an underscore stands only between digits, or
    between a base prefix and a digit. *)
Fixpoint underscoreOK_loop (hex : bool) (saw : rune) (s : gostring) : bool :=
  match s with
  | [] => negb (saw =? 95)
  | c :: r =>
      if is_digit c
         || (hex && (97 <=? lower c) && (lower c <=? 102))
      then underscoreOK_loop hex 48 r
      else if c =? 95 then
        if saw =? 48 then underscoreOK_loop hex 95 r else false
      else if saw =? 95 then false
      else underscoreOK_loop hex 33 r
  end.

Definition underscoreOK (s : gostring) : bool :=
  let s := match s with
           | 45 :: r => r
           | 43 :: r => r
           | _ => s
           end in
  match s with
  | 48 :: c :: r =>
      let l := lower c in
      if (l =? 98) || (l =? 111) || (l =? 120)
      then underscoreOK_loop (l =? 120) 48 r
      else underscoreOK_loop false 94 s
  | _ => underscoreOK_loop false 94 s
  end.

(** The mantissa loop of [strconv.readFloat]: the digits read as one
    integer in base [base], how many of them follow the point, and the
    text left over.  Underscores are skipped here and judged by
    [underscoreOK] afterwards. *)
Fixpoint read_mant (base : Z) (s : gostring) (m fd : Z) (sawdot sawdigits : bool)
  : Z * Z * bool * gostring :=
  match s with
  | [] => (m, fd, sawdigits, [])
  | c :: r =>
      if c =? 95 then read_mant base r m fd sawdot sawdigits
      else if c =? 46 then
        if sawdot then (m, fd, sawdigits, s)
        else read_mant base r m fd true sawdigits
      else
        match (if base =? 16 then hex_val c
               else if is_digit c then Some (c - 48) else None) with
        | Some d =>
            read_mant base r (m * base + d) (if sawdot then fd + 1 else fd)
              sawdot true
        | None => (m, fd, sawdigits, s)
        end
  end.

(** The exponent digits: the value saturates once it has reached 10000. *)
Fixpoint read_exp (s : gostring) (e : Z) : Z * gostring :=
  match s with
  | c :: r =>
      if c =? 95 then read_exp r e
      else if is_digit c then
        read_exp r (if e <? 10000 then e * 10 + (c - 48) else e)
      else (e, s)
  | [] => (e, [])
  end.

(** The number a float literal denotes, as [(negative, mantissa, base of
    the exponent, exponent)]; [None] on a syntax error.  The whole text
    has to be consumed. *)
Definition readFloat (s : gostring) : option (bool * Z * Z * Z) :=
  let '(neg, body) :=
    match s with
    | 43 :: r => (false, r)
    | 45 :: r => (true, r)
    | _ => (false, s)
    end in
  let '(hex, digits) :=
    match body with
    | 48 :: x :: c :: r => if lower x =? 120 then (true, c :: r) else (false, body)
    | _ => (false, body)
    end in
  let base := if hex then 16 else 10 in
  let '(m, fd, sawdigits, rest) := read_mant base digits 0 0 false false in
  if negb sawdigits then None
  else
    let fd := if hex then 4 * fd else fd in
    let finish (e : Z) (rest : gostring) :=
      if is_empty rest && (underscoreOK s)
      then Some (neg, m, (if hex then 2 else 10), e - fd)
      else None in
    match rest with
    | c :: r =>
        if lower c =? (if hex then 112 else 101) then
          let '(esign, r') :=
            match r with
            | 43 :: t => (1, t)
            | 45 :: t => (-1, t)
            | _ => (1, r)
            end in
          match r' with
          | d :: _ =>
              if is_digit d then
                let '(e, rest') := read_exp r' 0 in
                finish (e * esign) rest'
              else None
          | [] => None
          end
        else if hex then None else finish 0 rest
    | [] => if hex then None else finish 0 rest
    end.

(** [strconv.special]: [inf], [infinity] (signed or not) and [nan],
    whatever the case of the letters. *)
Definition special (s : gostring) : option float :=
  let '(signed, neg, body) :=
    match s with
    | 43 :: r => (true, false, r)
    | 45 :: r => (true, true, r)
    | _ => (false, false, s)
    end in
  let l := map lower body in
  if str_eqb l (lit "inf") || str_eqb l (lit "infinity")
  then Some (if neg then neg_infinity else infinity)
  else if negb signed && str_eqb l (lit "nan") then Some nan
  else None.

(** [strconv.ParseFloat(s, 32)]: the float32 nearest to the literal,
    converted to float64; a value beyond the float32 range is a range
    error. *)
Definition ParseFloat32 (s : gostring) : NumError + float :=
  match special s with
  | Some f => inr f
  | None =>
      match readFloat s with
      | None => inl ErrSyntax
      | Some (neg, m, b, e) =>
          let x := if 0 <=? e then round_rat 24 128 neg (m * b ^ e) 1
                   else round_rat 24 128 neg m (b ^ (- e)) in
          match x with
          | S754_infinity _ => inl ErrRange
          | _ => inr (of_float32 x)
          end
      end
  end.

(** [fmt.Sprintf("%.2f", f)]: the exact value of [f] rounded to two
    decimals, ties to even; [%2.2f] prints the same text, since no result
    is shorter than two characters. *)
Definition pad2 (n : Z) : gostring := [48 + n / 10; 48 + n mod 10].

Definition FormatFixed2 (f : float) : gostring :=
  match Prim2SF f with
  | S754_nan => lit "NaN"
  | S754_infinity false => lit "+Inf"
  | S754_infinity true => lit "-Inf"
  | S754_zero s => (if s then [45] else []) ++ lit "0.00"
  | S754_finite s m e =>
      let n := if 0 <=? e then Zpos m * 2 ^ e * 100
               else round_at (Zpos m * 100) (2 ^ (- e)) 0 in
      (if s then [45] else []) ++ utoa (n / 100) ++ [46] ++ pad2 (n mod 100)
  end.

(** The exact value of a finite float, as a fraction [(n, d)]. *)
Definition exact (f : float) : option (Z * Z) :=
  match Prim2SF f with
  | S754_zero _ => Some (0, 1)
  | S754_finite s m e =>
      let n := if s then Zneg m else Zpos m in
      Some (if 0 <=? e then (n * 2 ^ e, 1) else (n, 2 ^ (- e)))
  | _ => None
  end.

End GoFloat.

Export GoFloat.

(** ** The data model of [main.go] *)

Record token := mkToken { val : gostring; linePos : Z; charPos : Z }.

Record Time := mkTime { Hour : Z; Minute : Z; Second : float }.

Record Reason := mkReason { Category : gostring; Specifier : gostring }.

(** [type Verb string] *)
Definition Verb := gostring.
Definition CutVerb : Verb := lit "cut".
Definition MuteVerb : Verb := lit "mute".

Record action := mkAction {
  tokens : list token;
  verb : Verb;
  start : Time;
  end_ : Time;
  reason : Reason
}.

(** The zero values [Time{}], [Reason{}] and [action{}]. *)
Definition Time0 : Time := mkTime 0 0 0%float.
Definition Reason0 : Reason := mkReason [] [].
Definition action0 : action := mkAction [] [] Time0 Time0 Reason0.

(** One constructor for each [fmt.Errorf] of the program, holding the
    values the message is formatted from. *)
Inductive parse_error :=
| BadHour (part : gostring) (e : NumError)
| BadMinute (part : gostring) (e : NumError)
| BadSecond (part : gostring) (e : NumError)
| BadTimeFormat (timeStr : gostring)
| BadReasonFormat (reasonStr : gostring).

Inductive error :=
| UnexpectedState
| ScanError
| UnrecognizedVerb (line col : Z) (v : gostring)
| InvalidStartTime (e : parse_error)
| InvalidEndTime (e : parse_error)
| InvalidReason (e : parse_error)
| UnexpectedTokenCount (line : Z) (n : Z)
| NoTokens (i : Z)
| EndBeforeStart (line : Z) (e s : Time)
| TooClose (line : Z) (e s : Time)
| OutOfOrder (line1 line2 : Z)
| OverlapOrClose (line1 line2 : Z)
| NoActions
| UnsupportedVerb (i : Z) (v : Verb).

(** ** [Time] methods *)

(** [func (t Time) SecondNum() float64] *)
Definition SecondNum (t : Time) : float :=
  (of_int (wrap64 (wrap64 (wrap64 (Hour t * 60) * 60) + wrap64 (Minute t * 60)))
   + Second t)%float.

(** [func (t Time) SecondString() string] *)
Definition SecondString (t : Time) : gostring := FormatFixed2 (SecondNum t).

(** [func (t Time) String() string] *)
Definition Time_String (t : Time) : gostring :=
  if Hour t >? 0
  then itoa (Hour t) ++ lit ":" ++ itoa (Minute t) ++ lit ":" ++ FormatFixed2 (Second t)
  else itoa (Minute t) ++ lit ":" ++ FormatFixed2 (Second t).

(** ** The parsers *)

Definition default00 (p : gostring) : gostring :=
  if is_empty p then lit "00" else p.

(** [func ParseTime(timeStr string) (Time, error)] *)
Definition ParseTime (timeStr : gostring) : parse_error + Time :=
  let timeStr := TrimSpace timeStr in
  if is_empty timeStr then inr Time0
  else
    let parts := map default00 (Split 58 timeStr) in
    let seconds (h m : Z) (p : gostring) :=
      match ParseFloat32 p with
      | inl e => inl (BadSecond p e)
      | inr sec => inr (mkTime h m sec)
      end in
    match parts with
    | [p0] => seconds 0 0 p0
    | [p0; p1] =>
        match Atoi p0 with
        | inl e => inl (BadMinute p0 e)
        | inr min => seconds 0 min p1
        end
    | [p0; p1; p2] =>
        match Atoi p0 with
        | inl e => inl (BadHour p0 e)
        | inr hour =>
            match Atoi p1 with
            | inl e => inl (BadMinute p1 e)
            | inr min => seconds hour min p2
            end
        end
    | _ => inl (BadTimeFormat timeStr)
    end.

(** [func ParseReason(reasonStr string) (Reason, error)] *)
Definition ParseReason (reasonStr : gostring) : parse_error + Reason :=
  let reasonStr := TrimSpace reasonStr in
  if is_empty reasonStr then inr Reason0
  else
    match Split 58 reasonStr with
    | [p0] => inr (mkReason (TrimSpace p0) [])
    | [p0; p1] => inr (mkReason (TrimSpace p0) (TrimSpace p1))
    | _ => inl (BadReasonFormat reasonStr)
    end.

(** [var verbs = map[string]Verb{...}] *)
Definition verbs (k : gostring) : option Verb :=
  if str_eqb k (lit "cut") then Some CutVerb
  else if str_eqb k (lit "mute") then Some MuteVerb
  else None.

(** ** The lexer *)

(** What the [bufio.Scanner] hands to [getTokens]: the lines of the input,
    each as [[]rune(scanner.Text())], and whether [scanner.Err()] is set
    once they are read. *)
Record reader := mkReader { lines : list (list rune); scanFailed : bool }.

Definition freshToken (lineNum : Z) : token := mkToken [] lineNum (-1).

(** The closure [saveTkn]: the token, trimmed, joins [tokens]. *)
Definition saveTkn (tkns : list token) (tkn : token) : list token :=
  tkns ++ [mkToken (TrimSpace (val tkn)) (linePos tkn) (charPos tkn)].

(** What the body of the rune loop does with one rune. *)
Inductive outcome :=
| Next (tkns : list token) (tkn : token) (field : string)
| NextLine (tkns : list token)
| Failed (tkns : list token).

Definition accumulate (tkns : list token) (tkn : token) (field : string)
    (charNum : Z) (ch : rune) : outcome :=
  if is_empty (val tkn) && IsSpace ch then Next tkns tkn field
  else
    let pos := if charPos tkn =? -1 then charNum + 1 else charPos tkn in
    Next tkns (mkToken (val tkn ++ [ch]) (linePos tkn) pos) field.

Definition lexRune (lineNum charNum : Z) (ch : rune)
    (tkns : list token) (tkn : token) (field : string) : outcome :=
  let isSpace := IsSpace ch in
  if ch =? 35 then NextLine tkns
  else if String.eqb field "verb" then
    if isSpace && negb (is_empty (val tkn))
    then Next (saveTkn tkns tkn) (freshToken lineNum) "start"
    else accumulate tkns tkn field charNum ch
  else if String.eqb field "start" then
    if (ch =? 45) && negb (is_empty (val tkn))
    then Next (saveTkn tkns tkn) (freshToken lineNum) "end"
    else accumulate tkns tkn field charNum ch
  else if String.eqb field "end" then
    if (ch =? 40) && negb (is_empty (val tkn))
    then Next (saveTkn tkns tkn) (freshToken lineNum) "reason"
    else accumulate tkns tkn field charNum ch
  else if String.eqb field "reason" then
    if ch =? 41
    then NextLine (saveTkn tkns tkn)
    else accumulate tkns tkn field charNum ch
  else Failed tkns.

(** The rune loop over the rest of a line, and what follows it when the
    line is exhausted. *)
Fixpoint lexRunes (lineNum charNum : Z) (line : list rune)
    (tkns : list token) (tkn : token) (field : string)
  : list token * option error :=
  match line with
  | [] =>
      (if negb (is_empty (val tkn)) then saveTkn tkns tkn else tkns, None)
  | ch :: rest =>
      match lexRune lineNum charNum ch tkns tkn field with
      | Next tkns' tkn' field' => lexRunes lineNum (charNum + 1) rest tkns' tkn' field'
      | NextLine tkns' => (tkns', None)
      | Failed tkns' => (tkns', Some UnexpectedState)
      end
  end.

Definition lexLine (lineNum : Z) (line : list rune) (tkns : list token)
  : list token * option error :=
  lexRunes lineNum 0 line tkns (freshToken lineNum) "verb".

Fixpoint lexLines (lineNum : Z) (ls : list (list rune)) (tkns : list token)
    (failed : bool) : list token * option error :=
  match ls with
  | [] => (tkns, if failed then Some ScanError else None)
  | line :: rest =>
      match lexLine lineNum line tkns with
      | (tkns', None) => lexLines (wrap64 (lineNum + 1)) rest tkns' failed
      | r => r
      end
  end.

(** [func getTokens(input io.Reader) ([]token, error)] *)
Definition getTokens (input : reader) : list token * option error :=
  lexLines 1 (lines input) [] (scanFailed input).

(** ** The action builder *)

Definition addToken (act : action) (tkn : token) : action :=
  mkAction (tokens act ++ [tkn]) (verb act) (start act) (end_ act) (reason act).

(** The [switch len(act.tokens)] of [getActions], up to the append. *)
Definition fillField (act : action) (tkn : token) : error + action :=
  match tokens act with
  | [] =>
      match verbs (ToLower (val tkn)) with
      | None => inl (UnrecognizedVerb (linePos tkn) (charPos tkn) (val tkn))
      | Some v => inr (mkAction (tokens act) v (start act) (end_ act) (reason act))
      end
  | [_] =>
      match ParseTime (val tkn) with
      | inl e => inl (InvalidStartTime e)
      | inr t => inr (mkAction (tokens act) (verb act) t (end_ act) (reason act))
      end
  | [_; _] =>
      match ParseTime (val tkn) with
      | inl e => inl (InvalidEndTime e)
      | inr t => inr (mkAction (tokens act) (verb act) (start act) t (reason act))
      end
  | [_; _; _] =>
      match ParseReason (val tkn) with
      | inl e => inl (InvalidReason e)
      | inr r => inr (mkAction (tokens act) (verb act) (start act) (end_ act) r)
      end
  | _ => inl (UnexpectedTokenCount (linePos tkn) (Z.of_nat (List.length (tokens act))))
  end.

Definition flush (actions : list action) (act : action) : list action :=
  match tokens act with
  | [] => actions
  | _ => actions ++ [act]
  end.

Fixpoint buildActions (tkns : list token) (actions : list action) (line : Z)
    (act : action) : list action * option error :=
  match tkns with
  | [] => (flush actions act, None)
  | tkn :: rest =>
      let '(actions, act, line) :=
        if linePos tkn >? line
        then (flush actions act, action0, linePos tkn)
        else (actions, act, line) in
      match fillField act tkn with
      | inl e => (actions, Some e)
      | inr act' => buildActions rest actions line (addToken act' tkn)
      end
  end.

(** [func getActions(tokens []token) ([]action, error)] *)
Definition getActions (tkns : list token) : list action * option error :=
  buildActions tkns [] 1 action0.

(** ** The validator *)

(** [threshold := .001]: the float64 nearest to 1/1000. *)
Definition threshold : float := 0x1.0624dd2f1a9fcp-10%float.

(** [a.tokens[0].linePos]; the validator reads it only after it has
    checked that [a.tokens] is not empty. *)
Definition firstLine (a : action) : Z :=
  match tokens a with
  | t :: _ => linePos t
  | [] => 0
  end.

(** [actions[i]] *)
Definition at_ (actions : list action) (i : nat) : action := nth i actions action0.

(** The body of the loop of [validateSegmentTimes] at index [i]. *)
Definition checkAction (actions : list action) (i : nat) : option error :=
  let act := at_ actions i in
  match tokens act with
  | [] => Some (NoTokens (Z.of_nat i))
  | _ =>
      if (SecondNum (end_ act) <? SecondNum (start act))%float
      then Some (EndBeforeStart (firstLine act) (end_ act) (start act))
      else if (SecondNum (end_ act) - SecondNum (start act) <? threshold)%float
      then Some (TooClose (firstLine act) (end_ act) (start act))
      else if (0 <? i)%nat then
        if (SecondNum (end_ (at_ actions i))
            <? SecondNum (start (at_ actions (i - 1))))%float
        then Some (OutOfOrder (firstLine (at_ actions (i - 1))) (firstLine act))
        else if (SecondNum (start (at_ actions i))
                 - SecondNum (end_ (at_ actions (i - 1))) <? threshold)%float
        then Some (OverlapOrClose (firstLine (at_ actions (i - 1))) (firstLine act))
        else None
      else None
  end.

(** The loop from index [i], with [n] actions left. *)
Fixpoint validateFrom (actions : list action) (i n : nat) : option error :=
  match n with
  | O => None
  | S n' =>
      match checkAction actions i with
      | Some e => Some e
      | None => validateFrom actions (S i) n'
      end
  end.

(** [func validateSegmentTimes(actions []action) error] *)
Definition validateSegmentTimes (actions : list action) : option error :=
  validateFrom actions 0 (List.length actions).

(** ** The graph compiler *)

(** The text [buildComplexFilter] builds is a sequence of [fmt.Sprintf]
    results; a [stmt] is one such call, with its arguments in order. *)
Inductive audio_input := Original | Silence.

Inductive stmt :=
| Head (vdur vlabel adur alabel : gostring)
| Seg (ain : audio_input) (vstart vend vlabel astart aend alabel : gostring)
| Concat (v1 v2 vout a1 a2 aout : gostring)
| Tail (vstart vlabel astart alabel : gostring)
| FinalConcat (v1 v2 vout a1 a2 aout : gostring).

Definition render (st : stmt) : gostring :=
  match st with
  | Head vd vl ad al =>
      lit "[0:v]trim=duration=" ++ vd ++ lit "[" ++ vl
      ++ lit "];[0:a]atrim=duration=" ++ ad ++ lit "[" ++ al ++ lit "];"
  | Seg ain vs ve vl as_ ae al =>
      lit "[0:v]trim=start=" ++ vs ++ lit ":end=" ++ ve
      ++ lit ",setpts=PTS-STARTPTS[" ++ vl ++ lit "];["
      ++ lit (match ain with Original => "0" | Silence => "1" end)
      ++ lit ":a]atrim=start=" ++ as_ ++ lit ":end=" ++ ae
      ++ lit ",asetpts=PTS-STARTPTS[" ++ al ++ lit "];"
  | Concat v1 v2 vo a1 a2 ao =>
      lit "[" ++ v1 ++ lit "][" ++ v2 ++ lit "]concat[" ++ vo ++ lit "];["
      ++ a1 ++ lit "][" ++ a2 ++ lit "]concat=v=0:a=1[" ++ ao ++ lit "];"
  | Tail vs vl as_ al =>
      lit "[0:v]trim=start=" ++ vs ++ lit ",setpts=PTS-STARTPTS[" ++ vl
      ++ lit "];[0:a]atrim=start=" ++ as_ ++ lit ",asetpts=PTS-STARTPTS["
      ++ al ++ lit "];"
  | FinalConcat v1 v2 vo a1 a2 ao =>
      lit "[" ++ v1 ++ lit "][" ++ v2 ++ lit "]concat[" ++ vo ++ lit "];["
      ++ a1 ++ lit "][" ++ a2 ++ lit "]concat=v=0:a=1[" ++ ao ++ lit "]"
  end.

(** The closures over [segmentCounter]. *)
Definition vidSegment (c : Z) : gostring := lit "video" ++ itoa c.
Definition audSegment (c : Z) : gostring := lit "audio" ++ itoa c.
Definition prevVidSegment (c n : Z) : gostring := lit "video" ++ itoa (wrap64 (c + n)).
Definition prevAudSegment (c n : Z) : gostring := lit "audio" ++ itoa (wrap64 (c + n)).

(** The pattern the loop repeats: [segmentCounter++], a trim pair over
    [st]..[en]; [segmentCounter++], the concatenation of the two segments
    before it. *)
Definition splice (ain : audio_input) (st en : gostring) (sc : list stmt * Z)
  : list stmt * Z :=
  let '(s, c) := sc in
  let c1 := wrap64 (c + 1) in
  let s1 := s ++ [Seg ain st en (vidSegment c1) st en (audSegment c1)] in
  let c2 := wrap64 (c1 + 1) in
  (s1 ++ [Concat (prevVidSegment c2 (-2)) (prevVidSegment c2 (-1)) (vidSegment c2)
                 (prevAudSegment c2 (-2)) (prevAudSegment c2 (-1)) (audSegment c2)],
   c2).

(** The body of the loop of [buildComplexFilter] at index [i]. *)
Definition compileAction (actions : list action) (i : nat) (sc : list stmt * Z)
  : (list stmt * error) + (list stmt * Z) :=
  let act := at_ actions i in
  if str_eqb (verb act) CutVerb then
    let sc1 :=
      if (0 <? i)%nat
      then splice Original (SecondString (end_ (at_ actions (i - 1))))
             (SecondString (start act)) sc
      else sc in
    let sc2 :=
      if (Z.of_nat i <? Z.of_nat (List.length actions) - 1)
         && negb (str_eqb (verb (at_ actions (i + 1))) CutVerb)
      then splice Original (SecondString (end_ act))
             (SecondString (start (at_ actions (i + 1)))) sc1
      else sc1 in
    inr sc2
  else if str_eqb (verb act) MuteVerb then
    inr (splice Silence (SecondString (start act)) (SecondString (end_ act)) sc)
  else inl (fst sc, UnsupportedVerb (Z.of_nat i) (verb act)).

Fixpoint compileFrom (actions : list action) (i n : nat) (sc : list stmt * Z)
  : (list stmt * error) + (list stmt * Z) :=
  match n with
  | O => inr sc
  | S n' =>
      match compileAction actions i sc with
      | inl r => inl r
      | inr sc' => compileFrom actions (S i) n' sc'
      end
  end.

(** The statements of [buildComplexFilter], in the order they are appended
    to [s]. *)
Definition buildStmts (actions : list action) : list stmt * option error :=
  match actions with
  | [] => ([], Some NoActions)
  | _ =>
      let firstSec := SecondString (start (at_ actions 0)) in
      let s0 := [Head firstSec (vidSegment 0) firstSec (audSegment 0)] in
      match compileFrom actions 0 (List.length actions) (s0, 0) with
      | inl (s, e) => (s, Some e)
      | inr (s, c) =>
          let lastAction := at_ actions (List.length actions - 1) in
          let c' := wrap64 (c + 1) in
          (s ++ [Tail (SecondString (end_ lastAction)) (vidSegment c')
                      (SecondString (end_ lastAction)) (audSegment c');
                 FinalConcat (prevVidSegment c' (-1)) (vidSegment c') (lit "outv")
                             (prevAudSegment c' (-1)) (audSegment c') (lit "outa")],
           None)
      end
  end.

(** [func buildComplexFilter(actions []action) (string, error)] *)
Definition buildComplexFilter (actions : list action) : gostring * option error :=
  let '(s, e) := buildStmts actions in (flat_map render s, e).

(** The pipeline of [main] up to the call of ffmpeg: each stage runs only
    when the one before it reported no error. *)
Definition compileFilterFile (input : reader) : error + gostring :=
  match getTokens input with
  | (_, Some e) => inl e
  | (tkns, None) =>
      match getActions tkns with
      | (_, Some e) => inl e
      | (actions, None) =>
          match validateSegmentTimes actions with
          | Some e => inl e
          | None =>
              match buildComplexFilter actions with
              | (_, Some e) => inl e
              | (s, None) => inr s
              end
          end
      end
  end.

(** ** Auxiliary notions for the statements below *)

(** How many tokens of the current line are finalized when the lexer is in
    a given field. *)
Definition rank (field : string) : option nat :=
  if String.eqb field "verb" then Some 0%nat
  else if String.eqb field "start" then Some 1%nat
  else if String.eqb field "end" then Some 2%nat
  else if String.eqb field "reason" then Some 3%nat
  else None.

Definition on_line (l : Z) (t : token) : Prop := linePos t = l.

(** The token list of a whole input: groups of at most four tokens, one
    group for each line that has tokens, with growing line numbers. *)
Inductive chunks : Z -> list token -> Prop :=
| chunks_nil n : chunks n []
| chunks_cons n l t g rest :
    n <= l ->
    (List.length (t :: g) <= 4)%nat ->
    Forall (on_line l) (t :: g) ->
    chunks (l + 1) rest ->
    chunks n ((t :: g) ++ rest).

Definition tokensOnLine (l : Z) (tkns : list token) : list token :=
  filter (fun t => linePos t =? l) tkns.

Definition isCountError (e : option error) : Prop :=
  exists l n, e = Some (UnexpectedTokenCount l n).

(** The verbs the compiler has a case for. *)
Definition supported (a : action) : Prop := verb a = CutVerb \/ verb a = MuteVerb.

(** The first statement of every text, and the state of the loop of
    [buildComplexFilter] after [k] iterations. *)
Definition headStmt (actions : list action) : stmt :=
  Head (SecondString (start (at_ actions 0))) (vidSegment 0)
       (SecondString (start (at_ actions 0))) (audSegment 0).

Definition loopState (actions : list action) (k : nat)
  : (list stmt * error) + (list stmt * Z) :=
  compileFrom actions 0 k ([headStmt actions], 0).

(** The labels a statement defines (video, audio), and the labels a
    concatenation reads. *)
Definition defines (st : stmt) : gostring * gostring :=
  match st with
  | Head _ vl _ al => (vl, al)
  | Seg _ _ _ vl _ _ al => (vl, al)
  | Concat _ _ vo _ _ ao => (vo, ao)
  | Tail _ vl _ al => (vl, al)
  | FinalConcat _ _ vo _ _ ao => (vo, ao)
  end.

Definition concat_inputs (st : stmt)
  : option ((gostring * gostring) * (gostring * gostring)) :=
  match st with
  | Concat v1 v2 _ a1 a2 _ => Some ((v1, a1), (v2, a2))
  | FinalConcat v1 v2 _ a1 a2 _ => Some ((v1, a1), (v2, a2))
  | _ => None
  end.

(** A trim statement emits a new segment; a [Head] or a [Concat] yields
    the segment accumulated so far. *)
Definition is_trim (st : stmt) : bool :=
  match st with Seg _ _ _ _ _ _ _ => true | Tail _ _ _ _ => true | _ => false end.

Definition is_accumulated (st : stmt) : bool :=
  match st with Head _ _ _ _ => true | Concat _ _ _ _ _ _ => true | _ => false end.

(** The statements of a run of splices that starts with the counter at [c]. *)
Fixpoint chain (c : Z) (items : list (audio_input * gostring * gostring)) : list stmt :=
  match items with
  | [] => []
  | (ain, st, en) :: r =>
      Seg ain st en (vidSegment (c + 1)) st en (audSegment (c + 1))
      :: Concat (vidSegment c) (vidSegment (c + 1)) (vidSegment (c + 2))
                (audSegment c) (audSegment (c + 1)) (audSegment (c + 2))
      :: chain (c + 2) r
  end.

(** The whole text: the head, a chain of splices, the tail and the final
    concatenation. *)
Definition tailStmts (e : gostring) (c : Z) : list stmt :=
  [Tail e (vidSegment (c + 1)) e (audSegment (c + 1));
   FinalConcat (vidSegment c) (vidSegment (c + 1)) (lit "outv")
               (audSegment c) (audSegment (c + 1)) (lit "outa")].

(** The state between two iterations: the counter is an int, and the last
    statement holds the accumulated segment, labelled with the counter. *)
Definition accumulated_at (sc : list stmt * Z) : Prop :=
  in_int64 (snd sc)
  /\ exists s0 acc,
       fst sc = s0 ++ [acc]
       /\ is_accumulated acc = true
       /\ defines acc = (vidSegment (snd sc), audSegment (snd sc)).

Definition spliceStmts (ain : audio_input) (st en : gostring) (c : Z) : list stmt :=
  let c1 := wrap64 (c + 1) in
  let c2 := wrap64 (c1 + 1) in
  [Seg ain st en (vidSegment c1) st en (audSegment c1);
   Concat (vidSegment c) (vidSegment c1) (vidSegment c2)
          (audSegment c) (audSegment c1) (audSegment c2)].

(** The claim of C2, on the action at [i] and the one after it: some trim
    statement of the text reads the original tracks over the interval
    between the two. *)
Definition gap_segment_emitted (actions : list action) (i : nat) : Prop :=
  exists vl al,
    In (Seg Original (SecondString (end_ (at_ actions i)))
                     (SecondString (start (at_ actions (S i)))) vl
                     (SecondString (end_ (at_ actions i)))
                     (SecondString (start (at_ actions (S i)))) al)
       (fst (buildStmts actions)).

Definition two_cuts : list action :=
  fst (getActions (fst (getTokens (mkReader [lit "cut 0:10-0:20"; lit "cut 0:25-0:30"] false)))).

(** The sign class of a float: zero, or negative. *)
Definition not_positive (x : spec_float) : bool :=
  match x with
  | S754_zero _ => true
  | S754_infinity s => s
  | S754_finite s _ _ => s
  | S754_nan => false
  end.

(** The three checks the validator makes on one action alone. *)
Definition within_ok (a : action) : bool :=
  match tokens a with
  | [] => false
  | _ =>
      negb (SecondNum (end_ a) <? SecondNum (start a))%float
      && negb (SecondNum (end_ a) - SecondNum (start a) <? threshold)%float
  end.

(** The two checks on the action at [i] against the one before it, in the
    order of the source. *)
Definition crossCheck (actions : list action) (i : nat) : option error :=
  if (SecondNum (end_ (at_ actions i)) <? SecondNum (start (at_ actions (i - 1))))%float
  then Some (OutOfOrder (firstLine (at_ actions (i - 1))) (firstLine (at_ actions i)))
  else if (SecondNum (start (at_ actions i))
           - SecondNum (end_ (at_ actions (i - 1))) <? threshold)%float
  then Some (OverlapOrClose (firstLine (at_ actions (i - 1))) (firstLine (at_ actions i)))
  else None.

Definition scenario_D : list action :=
  fst (getActions (fst (getTokens (mkReader [lit "cut 0:10-0:20"; lit "mute 0:15-0:18"] false)))).

(** The number a seconds literal denotes, as a fraction. *)
Definition literal_value (s : gostring) : option Q :=
  match readFloat s with
  | Some (neg, m, b, e) =>
      let q := if 0 <=? e then inject_Z (m * b ^ e)
               else Qmake m (Z.to_pos (b ^ (- e))) in
      Some (if neg then Qopp q else q)
  | None => None
  end.

(** The exact value of a finite float64, as a fraction. *)
Definition float_value (f : float) : option Q :=
  match exact f with
  | Some (n, d) => Some (Qmake n (Z.to_pos d))
  | None => None
  end.

(** The claim of C4 for the literal [M:S] and the Time parsed from it. *)
Definition within_tolerance (M S : gostring) (t : Time) : Prop :=
  exists min sec total,
    Atoi M = inr min
    /\ literal_value S = Some sec
    /\ float_value (SecondNum t) = Some total
    /\ Qle (Qabs (Qminus total (Qplus (inject_Z (min * 60)) sec)))
           (Qmake 1 1000000000).

(** The claim of C9: the fields of the display string between the colons
    are the hour (when it is positive), the minute and the seconds, the
    last two of width two. *)
Definition display_padded (t : Time) : Prop :=
  if Hour t >? 0
  then exists h m s, Split 58 (Time_String t) = [h; m; s]
                     /\ List.length m = 2%nat /\ List.length s = 2%nat
  else exists m s, Split 58 (Time_String t) = [m; s] /\ List.length s = 2%nat.

(** The example of the README. *)
Definition cut_then_mute : list action :=
  fst (getActions (fst (getTokens
    (mkReader [lit "cut 1:32-1:45"; lit "mute 2:19.2-2:19.85"] false)))).

(** ** Notions for the further properties *)

Definition built (a : action) : Prop := tokens a <> [] /\ supported a.

(** What the validator checks at index [i], as a proposition. *)
Definition valid_at (actions : list action) (i : nat) : Prop :=
  tokens (at_ actions i) <> []
  /\ (SecondNum (end_ (at_ actions i)) <? SecondNum (start (at_ actions i)))%float = false
  /\ (SecondNum (end_ (at_ actions i)) - SecondNum (start (at_ actions i))
      <? threshold)%float = false
  /\ ((0 < i)%nat ->
      (SecondNum (end_ (at_ actions i))
       <? SecondNum (start (at_ actions (i - 1))))%float = false
      /\ (SecondNum (start (at_ actions i)) - SecondNum (end_ (at_ actions (i - 1)))
          <? threshold)%float = false).

Definition colons (s : gostring) : nat := count_occ Z.eq_dec s 58.

(** The segments the action at [i] splices onto the accumulated one, each
    as (audio input, start, end): for a cut the media before it and, when
    the next action is no cut, the media after it; for a mute the muted
    interval. *)
Definition contribution (actions : list action) (i : nat)
  : list (audio_input * gostring * gostring) :=
  let act := at_ actions i in
  if str_eqb (verb act) CutVerb then
    (if (0 <? i)%nat
     then [(Original, SecondString (end_ (at_ actions (i - 1))), SecondString (start act))]
     else [])
    ++ (if (Z.of_nat i <? Z.of_nat (List.length actions) - 1)
           && negb (str_eqb (verb (at_ actions (i + 1))) CutVerb)
        then [(Original, SecondString (end_ act), SecondString (start (at_ actions (i + 1))))]
        else [])
  else [(Silence, SecondString (start act), SecondString (end_ act))].

Definition segments (actions : list action) (k : nat)
  : list (audio_input * gostring * gostring) :=
  flat_map (contribution actions) (seq 0 k).



(** The rune that ends a field, once the field has content. *)
Definition ends_field (field : string) (ch : rune) : bool :=
  if String.eqb field "verb" then IsSpace ch
  else if String.eqb field "start" then ch =? 45
  else if String.eqb field "end" then ch =? 40
  else if String.eqb field "reason" then ch =? 41
  else true.

(** A run of runes the lexer only accumulates in [field]: neither a [#]
    nor the rune that ends the field. *)
Definition plain (field : string) (blk : list rune) : Prop :=
  Forall (fun ch => (ch =? 35) = false /\ ends_field field ch = false) blk.

Definition next_field (field : string) : string :=
  if String.eqb field "verb" then "start"
  else if String.eqb field "start" then "end"
  else "reason".



(** Inputs for the instances. *)
Definition readme_input : reader :=
  mkReader [lit "cut 1:32-1:45"; lit "mute 2:19.2-2:19.85"] false.

Definition two_mutes : list action :=
  fst (getActions (fst (getTokens
    (mkReader [lit "mute 0:10-0:20"; lit "mute 0:25-0:30"] false)))).

Definition nan_cut : list action :=
  fst (getActions (fst (getTokens (mkReader [lit "cut nan-nan"] false)))).

(** * Properties *)

(** ** Integers *)

Lemma wrap64_id z : - 2 ^ 63 <= z < 2 ^ 63 -> wrap64 z = z.
Proof.
  intro H. unfold wrap64.
  rewrite Z.mod_small; lia.
Qed.

Lemma wrap64_range z : - 2 ^ 63 <= wrap64 z < 2 ^ 63.
Proof.
  unfold wrap64.
  pose proof (Z.mod_pos_bound (z + 2 ^ 63) (2 ^ 64) ltac:(lia)). lia.
Qed.


Lemma str_eqb_eq a : forall b, str_eqb a b = true <-> a = b.
Proof.
  induction a as [|x a IH]; intros [|y b]; simpl; split; intro H;
    try reflexivity; try discriminate.
  - apply andb_true_iff in H as [Hx Hr]. apply Z.eqb_eq in Hx.
    apply IH in Hr. congruence.
  - inversion H; subst. rewrite Z.eqb_refl. simpl. now apply IH.
Qed.

Lemma wrap64_add_l a b : wrap64 (wrap64 a + b) = wrap64 (a + b).
Proof.
  unfold wrap64. f_equal.
  replace ((a + 2 ^ 63) mod 2 ^ 64 - 2 ^ 63 + b + 2 ^ 63)
    with ((a + 2 ^ 63) mod 2 ^ 64 + b) by ring.
  rewrite Zplus_mod_idemp_l. f_equal. ring.
Qed.

(** *** Decimal digits *)

Lemma digits_fuel_app f : forall n acc,
  digits_fuel f n acc = digits_fuel f n [] ++ acc.
Proof.
  induction f as [|f IH]; intros n acc; [reflexivity|].
  simpl. destruct (n <? 10); [reflexivity|].
  rewrite IH. rewrite (IH _ [_]). rewrite <- app_assoc. reflexivity.
Qed.

Lemma digits_fuel_enough f : forall f' n,
  (0 < f)%nat -> (0 < f')%nat ->
  0 <= n < 2 ^ Z.of_nat f -> 0 <= n < 2 ^ Z.of_nat f' ->
  digits_fuel f n [] = digits_fuel f' n [].
Proof.
  induction f as [|f IH]; intros f' n H0 H0' Hf Hf'; [lia|].
  destruct f' as [|f']; [lia|].
  simpl. destruct (Z.ltb_spec n 10); [reflexivity|].
  rewrite digits_fuel_app. rewrite (digits_fuel_app f').
  f_equal.
  rewrite Nat2Z.inj_succ, Z.pow_succ_r in Hf, Hf' by lia.
  assert (Hq : 1 <= n / 10) by (apply Z.div_le_lower_bound; lia).
  assert (Hf1 : n / 10 < 2 ^ Z.of_nat f) by (apply Z.div_lt_upper_bound; lia).
  assert (Hf1' : n / 10 < 2 ^ Z.of_nat f') by (apply Z.div_lt_upper_bound; lia).
  apply IH; try lia.
  - destruct f; [simpl in Hf1; lia | lia].
  - destruct f'; [simpl in Hf1'; lia | lia].
Qed.

Lemma log2_fuel n : 0 <= n -> 0 <= n < 2 ^ Z.of_nat (S (Z.to_nat (Z.log2 n))).
Proof.
  intro H. split; [assumption|].
  rewrite Nat2Z.inj_succ, Z2Nat.id by apply Z.log2_nonneg.
  destruct (Z.eq_dec n 0) as [->|Hn]; [reflexivity|].
  apply Z.log2_spec. lia.
Qed.

Lemma utoa_small n : 0 <= n < 10 -> utoa n = [48 + n].
Proof.
  intro H. unfold utoa. simpl.
  destruct (Z.ltb_spec n 10); [|lia]. rewrite Z.mod_small by lia. reflexivity.
Qed.

Lemma utoa_step n : 10 <= n -> utoa n = utoa (n / 10) ++ [48 + n mod 10].
Proof.
  intro H. unfold utoa at 1. simpl.
  destruct (Z.ltb_spec n 10); [lia|].
  rewrite digits_fuel_app. f_equal.
  unfold utoa.
  assert (Hq : 1 <= n / 10) by (apply Z.div_le_lower_bound; lia).
  assert (Hl2 : 0 < Z.log2 n) by (apply Z.log2_pos; lia).
  apply digits_fuel_enough.
  - apply Nat2Z.inj_lt. rewrite Z2Nat.id; lia.
  - lia.
  - pose proof (log2_fuel n ltac:(lia)) as Hl.
    rewrite Nat2Z.inj_succ, Z.pow_succ_r in Hl by lia.
    split; [apply Z.div_pos; lia | apply Z.div_lt_upper_bound; lia].
  - apply log2_fuel. apply Z.div_pos; lia.
Qed.

Lemma digits_val_snoc s : forall acc d,
  is_digit d = true ->
  digits_val acc (s ++ [d])
  = match digits_val acc s with
    | Some v => Some (v * 10 + (d - 48))
    | None => None
    end.
Proof.
  induction s as [|c s IH]; intros acc d Hd; simpl.
  - rewrite Hd. reflexivity.
  - destruct (is_digit c); [apply IH; assumption | reflexivity].
Qed.

Lemma is_digit_mod n : is_digit (48 + n mod 10) = true.
Proof.
  unfold is_digit. pose proof (Z.mod_pos_bound n 10 ltac:(lia)).
  apply andb_true_iff. split; apply Z.leb_le; lia.
Qed.

(** Reading back what [%d] printed gives the number. *)
Lemma digits_val_utoa n : 0 <= n -> digits_val 0 (utoa n) = Some n.
Proof.
  revert n. apply (Zlt_0_ind (fun n => digits_val 0 (utoa n) = Some n)).
  intros n IH Hn.
  destruct (Z.lt_ge_cases n 10) as [Hs|Hb].
  - rewrite utoa_small by lia. cbn [digits_val].
    replace (is_digit (48 + n)) with true.
    + f_equal. lia.
    + symmetry. unfold is_digit. apply andb_true_iff. split; apply Z.leb_le; lia.
  - rewrite utoa_step by assumption.
    rewrite digits_val_snoc by apply is_digit_mod.
    rewrite IH.
    + f_equal. pose proof (Z.div_mod n 10 ltac:(lia)). lia.
    + split; [apply Z.div_pos; lia | apply Z.div_lt_upper_bound; lia].
Qed.

Lemma utoa_inj a b : 0 <= a -> 0 <= b -> utoa a = utoa b -> a = b.
Proof.
  intros Ha Hb H.
  pose proof (digits_val_utoa a Ha) as Ea.
  rewrite H, digits_val_utoa in Ea by assumption. congruence.
Qed.

Lemma itoa_nonneg n : 0 <= n -> itoa n = utoa n.
Proof.
  intro H. unfold itoa. destruct (Z.ltb_spec n 0); [lia|reflexivity].
Qed.

Lemma vidSegment_inj a b : 0 <= a -> 0 <= b -> vidSegment a = vidSegment b -> a = b.
Proof.
  unfold vidSegment. intros Ha Hb H. apply app_inv_head in H.
  rewrite !itoa_nonneg in H by assumption. now apply utoa_inj.
Qed.

Lemma audSegment_inj a b : 0 <= a -> 0 <= b -> audSegment a = audSegment b -> a = b.
Proof.
  unfold audSegment. intros Ha Hb H. apply app_inv_head in H.
  rewrite !itoa_nonneg in H by assumption. now apply utoa_inj.
Qed.

(** ** The lexer: comments *)

Section Comment.

Variable lineNum : Z.

Lemma lexRune_hash charNum tkns tkn field :
  lexRune lineNum charNum 35 tkns tkn field = NextLine tkns.
Proof. reflexivity. Qed.

(** Scanning [pre ++ # :: rest] and scanning [pre] alone differ by at most
    the pending token. *)
Lemma lexRunes_comment pre : forall rest charNum tkns tkn field,
  ~ In 35 pre ->
  exists pending,
    fst (lexRunes lineNum charNum pre tkns tkn field)
    = fst (lexRunes lineNum charNum (pre ++ 35 :: rest) tkns tkn field) ++ pending
    /\ (pending = [] \/ exists t, pending = [t])
    /\ snd (lexRunes lineNum charNum (pre ++ 35 :: rest) tkns tkn field)
       = snd (lexRunes lineNum charNum pre tkns tkn field).
Proof.
  induction pre as [|ch pre IH]; intros rest charNum tkns tkn field Hno.
  - simpl. destruct (is_empty (val tkn)); simpl.
    + exists []. rewrite app_nil_r. auto.
    + eexists. split; [reflexivity|]. split; [right; eexists; reflexivity | reflexivity].
  - simpl. destruct (lexRune lineNum charNum ch tkns tkn field) as [t1 t2 f|t1|t1].
    + apply IH. intro H. apply Hno. now right.
    + exists []. rewrite app_nil_r. auto.
    + exists []. rewrite app_nil_r. auto.
Qed.

End Comment.

(** C6: in every state of the lexer a [#] ends the line at once: the
    result is the list of tokens finalized so far, the pending token is
    not emitted and the rest of the line is not read.  For a whole line:
    what follows the first [#] is irrelevant, and cutting the line there
    loses at most the token that was pending. *)
Theorem comment_abandons_line :
  (forall lineNum charNum rest tkns tkn field,
      lexRunes lineNum charNum (35 :: rest) tkns tkn field = (tkns, None))
  /\ (forall lineNum pre rest tkns,
        ~ In 35 pre ->
        lexLine lineNum (pre ++ 35 :: rest) tkns = lexLine lineNum (pre ++ [35]) tkns
        /\ exists pending,
            fst (lexLine lineNum pre tkns)
            = fst (lexLine lineNum (pre ++ 35 :: rest) tkns) ++ pending
            /\ (pending = [] \/ exists t, pending = [t])).
Proof.
  split; [reflexivity|].
  intros lineNum pre rest tkns Hno. split.
  - unfold lexLine. generalize (freshToken lineNum) "verb"%string 0 tkns.
    induction pre as [|ch pre IH]; intros tkn field c tk; [reflexivity|].
    simpl. destruct (lexRune lineNum c ch tk tkn field); auto.
    apply IH. intro H; apply Hno; now right.
  - destruct (lexRunes_comment lineNum pre rest 0 tkns (freshToken lineNum) "verb" Hno)
      as (p & H1 & H2 & _).
    exists p. auto.
Qed.

(** ** The lexer: tokens per line *)



Lemma lexRunes_line lineNum line : forall charNum tkns tkn field new k,
  rank field = Some k ->
  List.length new = k ->
  Forall (on_line lineNum) new ->
  linePos tkn = lineNum ->
  exists new',
    lexRunes lineNum charNum line (tkns ++ new) tkn field = (tkns ++ new', None)
    /\ (List.length new' <= 4)%nat
    /\ Forall (on_line lineNum) new'.
Proof.
  induction line as [|ch line IH]; intros charNum tkns tkn field new k Hr Hl Hf Ht.
  - simpl.
    assert (Hk : (k <= 3)%nat).
    { unfold rank in Hr.
      repeat match type of Hr with
             | (if ?b then _ else _) = _ => destruct b
             end; inversion Hr; lia. }
    destruct (is_empty (val tkn)); simpl.
    + exists new. repeat split; auto; lia.
    + exists (new ++ [mkToken (TrimSpace (val tkn)) (linePos tkn) (charPos tkn)]).
      unfold saveTkn. rewrite app_assoc. repeat split.
      * rewrite length_app. simpl. lia.
      * apply Forall_app. split; auto.
    - assert (Hacc : forall c,
               exists new', lexRunes lineNum c line (tkns ++ new) tkn field = (tkns ++ new', None)
                            /\ (List.length new' <= 4)%nat /\ Forall (on_line lineNum) new').
      { intro c. eapply IH; eauto. }
      assert (Hacc' : forall c tkn', linePos tkn' = lineNum ->
               exists new', lexRunes lineNum c line (tkns ++ new) tkn' field = (tkns ++ new', None)
                            /\ (List.length new' <= 4)%nat /\ Forall (on_line lineNum) new').
      { intros c tkn' E. eapply IH; eauto. }
      assert (Hsave : forall c field', rank field' = Some (S k) ->
               exists new', lexRunes lineNum c line (saveTkn (tkns ++ new) tkn) (freshToken lineNum) field'
                            = (tkns ++ new', None)
                            /\ (List.length new' <= 4)%nat /\ Forall (on_line lineNum) new').
      { intros c field' Hr'. unfold saveTkn. rewrite <- app_assoc.
        eapply IH; eauto.
        - rewrite length_app. simpl. lia.
        - apply Forall_app. split; auto. }
      assert (Hstep : forall o,
                 o = accumulate (tkns ++ new) tkn field charNum ch ->
                 exists new',
                   match o with
                   | Next a b f => lexRunes lineNum (charNum + 1) line a b f
                   | NextLine a => (a, None)
                   | Failed a => (a, Some UnexpectedState)
                   end = (tkns ++ new', None)
                   /\ (List.length new' <= 4)%nat /\ Forall (on_line lineNum) new').
      { intros o ->. unfold accumulate.
        destruct (is_empty (val tkn) && IsSpace ch); [apply Hacc|].
        apply Hacc'. exact Ht. }
      simpl. unfold lexRune.
      destruct (ch =? 35).
      { exists new. repeat split; auto.
        unfold rank in Hr.
        repeat match type of Hr with
               | (if ?b then _ else _) = _ => destruct b
               end; inversion Hr; lia. }
      unfold rank in Hr.
      destruct (String.eqb field "verb") eqn:E1.
      { injection Hr as Hk; rewrite <- Hk in *.
        destruct (IsSpace ch && negb (is_empty (val tkn))).
        - apply Hsave. reflexivity.
        - apply Hstep. reflexivity. }
      destruct (String.eqb field "start") eqn:E2.
      { injection Hr as Hk; rewrite <- Hk in *.
        destruct ((ch =? 45) && negb (is_empty (val tkn))).
        - apply Hsave. reflexivity.
        - apply Hstep. reflexivity. }
      destruct (String.eqb field "end") eqn:E3.
      { injection Hr as Hk; rewrite <- Hk in *.
        destruct ((ch =? 40) && negb (is_empty (val tkn))).
        - apply Hsave. reflexivity.
        - apply Hstep. reflexivity. }
      destruct (String.eqb field "reason") eqn:E4; [|discriminate].
      injection Hr as Hk; rewrite <- Hk in *.
      destruct (ch =? 41).
      + exists (new ++ [mkToken (TrimSpace (val tkn)) (linePos tkn) (charPos tkn)]).
        unfold saveTkn. rewrite app_assoc. repeat split.
        * rewrite length_app. simpl. lia.
        * apply Forall_app. split; auto.
      + apply Hstep. reflexivity.
Qed.

Lemma lexLine_line lineNum line tkns :
  exists new,
    lexLine lineNum line tkns = (tkns ++ new, None)
    /\ (List.length new <= 4)%nat
    /\ Forall (on_line lineNum) new.
Proof.
  unfold lexLine.
  destruct (lexRunes_line lineNum line 0 tkns (freshToken lineNum) "verb" [] 0%nat)
    as (new & H & Hn); auto.
  rewrite app_nil_r in H. exists new. auto.
Qed.


Lemma chunks_weaken n m tkns : m <= n -> chunks n tkns -> chunks m tkns.
Proof.
  intros Hm H. destruct H as [|n l t g rest Hnl Hlen Hf Hc]; [constructor|].
  apply chunks_cons with (l := l); auto. lia.
Qed.

Lemma chunks_ge n tkns : chunks n tkns -> Forall (fun t => n <= linePos t) tkns.
Proof.
  induction 1 as [|n l t g rest Hnl Hlen Hf Hc IH]; [constructor|].
  apply Forall_app. split.
  - eapply Forall_impl; [|exact Hf]. unfold on_line. intros; lia.
  - eapply Forall_impl; [|exact IH]. simpl. intros; lia.
Qed.

Lemma lexLines_chunks ls : forall n tkns failed,
  n + Z.of_nat (List.length ls) < 2 ^ 63 ->
  - 2 ^ 63 <= n ->
  exists out e,
    lexLines n ls tkns failed = (tkns ++ out, e) /\ chunks n out
    /\ e <> Some UnexpectedState.
Proof.
  induction ls as [|line ls IH]; intros n tkns failed Hn Hlo.
  - simpl. exists [], (if failed then Some ScanError else None).
    rewrite app_nil_r. repeat split; [constructor|]. destruct failed; discriminate.
  - simpl. destruct (lexLine_line n line tkns) as (new & -> & Hlen & Hf).
    simpl List.length in Hn.
    rewrite wrap64_id by lia.
    destruct (IH (n + 1) (tkns ++ new) failed) as (out & e & -> & Hc & He); try lia.
    exists (new ++ out), e. rewrite app_assoc. repeat split; auto.
    destruct new as [|t g].
    + simpl. eapply chunks_weaken; [|exact Hc]. lia.
    + apply chunks_cons with (l := n); auto. lia.
Qed.


Lemma tokensOnLine_none l tkns :
  Forall (fun t => linePos t <> l) tkns -> tokensOnLine l tkns = [].
Proof.
  unfold tokensOnLine. induction 1 as [|x xs Hx _ IHx]; [reflexivity|].
  simpl. destruct (Z.eqb_spec (linePos x) l); [contradiction|assumption].
Qed.

Lemma chunks_per_line n tkns : chunks n tkns ->
  forall l, (List.length (tokensOnLine l tkns) <= 4)%nat.
Proof.
  unfold tokensOnLine.
  induction 1 as [|n l0 t g rest Hnl Hlen Hf Hc IH]; intro l; [simpl; lia|].
  rewrite filter_app, length_app.
  destruct (Z.eq_dec l l0) as [->|Hne].
  - assert (filter (fun t => linePos t =? l0) rest = []) as ->.
    { apply (tokensOnLine_none l0 rest). apply chunks_ge in Hc.
      eapply Forall_impl; [|exact Hc]. simpl. intros; lia. }
    pose proof (filter_length_le (fun t => linePos t =? l0) (t :: g)). simpl in *. lia.
  - assert (filter (fun t => linePos t =? l) (t :: g) = []) as ->.
    { apply (tokensOnLine_none l (t :: g)).
      eapply Forall_impl; [|exact Hf]. unfold on_line. intros; lia. }
    simpl. apply IH.
Qed.

(** *** The action builder on lexer output *)


Lemma fillField_count act tkn :
  (List.length (tokens act) <= 3)%nat ->
  match fillField act tkn with
  | inl e => ~ isCountError (Some e)
  | inr act' => tokens act' = tokens act
  end.
Proof.
  intro H. unfold fillField.
  destruct (tokens act) as [|a [|b [|c [|d r]]]] eqn:E.
  - destruct (verbs _); [reflexivity|]. intros (l & n & Hc). discriminate.
  - destruct (ParseTime _); [|reflexivity]. intros (l & n & Hc). discriminate.
  - destruct (ParseTime _); [|reflexivity]. intros (l & n & Hc). discriminate.
  - destruct (ParseReason _); [|reflexivity]. intros (l & n & Hc). discriminate.
  - simpl in H. lia.
Qed.

Lemma buildActions_group g : forall rest actions line act,
  Forall (on_line line) g ->
  (List.length (tokens act) + List.length g <= 4)%nat ->
  (forall actions' act', (List.length (tokens act') <= 4)%nat ->
      ~ isCountError (snd (buildActions rest actions' line act'))) ->
  ~ isCountError (snd (buildActions (g ++ rest) actions line act)).
Proof.
  induction g as [|t g IH]; intros rest actions line act Hf Hlen Hrest.
  - simpl. apply Hrest. lia.
  - simpl. inversion Hf as [|? ? Ht Hg]; subst. unfold on_line in Ht.
    destruct (Z.gtb_spec (linePos t) line); [lia|].
    simpl in Hlen.
    pose proof (fillField_count act t ltac:(lia)) as Hfill.
    destruct (fillField act t) as [e|act']; [exact Hfill|].
    apply IH; auto.
    unfold addToken; simpl. rewrite length_app, Hfill. simpl. lia.
Qed.

Lemma buildActions_chunks n tkns : chunks n tkns ->
  forall actions line act,
    line < n ->
    ~ isCountError (snd (buildActions tkns actions line act)).
Proof.
  induction 1 as [|n l t g rest Hnl Hlen Hf Hc IH]; intros actions line act Hline.
  - simpl. intros (l & k & Hc). discriminate.
  - change ((t :: g) ++ rest) with (t :: (g ++ rest)).
    simpl. inversion Hf as [|? ? Ht Hg]; subst. unfold on_line in Ht.
    destruct (Z.gtb_spec (linePos t) line); [|lia].
    pose proof (fillField_count action0 t ltac:(simpl; lia)) as Hfill.
    destruct (fillField action0 t) as [e|act']; [exact Hfill|].
    apply buildActions_group.
    + rewrite Ht. exact Hg.
    + unfold addToken; simpl. rewrite length_app, Hfill. simpl in *. lia.
    + intros. apply IH. lia.
Qed.

Lemma getActions_chunks tkns : chunks 1 tkns ->
  ~ isCountError (snd (getActions tkns)).
Proof.
  intro H. unfold getActions.
  inversion H as [|n l t g rest Hnl Hlen Hf Hc]; subst.
  - simpl. intros (l & k & Hc). discriminate.
  - destruct (Z.eq_dec l 1) as [->|Hne].
    + apply buildActions_group; auto.
      intros. eapply buildActions_chunks; eauto. lia.
    + eapply buildActions_chunks with (n := l).
      * apply chunks_cons with (l := l); auto. lia.
      * lia.
Qed.

(** C10: the lexer emits at most four tokens for a line, and the action
    builder never reports an unexpected token count on lexer output. *)
Theorem lexer_four_tokens_per_line input :
  Z.of_nat (List.length (lines input)) < 2 ^ 63 - 1 ->
  (forall l, (List.length (tokensOnLine l (fst (getTokens input))) <= 4)%nat)
  /\ (forall l n,
        snd (getActions (fst (getTokens input))) <> Some (UnexpectedTokenCount l n)).
Proof.
  intro Hlen. unfold getTokens.
  destruct (lexLines_chunks (lines input) 1 [] (scanFailed input)) as (out & e & -> & Hc & _);
    try lia.
  simpl. split.
  - eapply chunks_per_line; eauto.
  - intros l n He. apply (getActions_chunks out Hc). now exists l, n.
Qed.

(** ** The graph compiler *)

Lemma splice_exact ain st en s c :
  - 2 ^ 63 <= c -> c + 2 < 2 ^ 63 ->
  splice ain st en (s, c) = (s ++ chain c [(ain, st, en)], c + 2).
Proof.
  intros Hlo Hhi. unfold splice, prevVidSegment, prevAudSegment. simpl.
  rewrite (wrap64_id (c + 1)) by lia.
  rewrite (wrap64_id (c + 1 + 1)) by lia.
  rewrite (wrap64_id (c + 1 + 1 + -2)) by lia.
  rewrite (wrap64_id (c + 1 + 1 + -1)) by lia.
  replace (c + 1 + 1 + -2) with c by lia.
  replace (c + 1 + 1 + -1) with (c + 1) by lia.
  replace (c + 1 + 1) with (c + 2) by lia.
  rewrite <- app_assoc. reflexivity.
Qed.

Lemma chain_app a : forall c b,
  chain c (a ++ b) = chain c a ++ chain (c + 2 * Z.of_nat (List.length a)) b.
Proof.
  induction a as [|[[ain st] en] a IH]; intros c b.
  - simpl. f_equal. lia.
  - cbn [chain app List.length]. rewrite IH.
    replace (c + 2 + 2 * Z.of_nat (List.length a))
      with (c + 2 * Z.of_nat (S (List.length a))) by lia.
    reflexivity.
Qed.

Lemma chain_length c items : List.length (chain c items) = (2 * List.length items)%nat.
Proof.
  revert c. induction items as [|[[ain st] en] r IH]; intro c; [reflexivity|].
  simpl. rewrite IH. lia.
Qed.

Lemma compileAction_chain actions i s c :
  supported (at_ actions i) ->
  0 <= c -> c + 4 < 2 ^ 63 ->
  exists items,
    compileAction actions i (s, c)
    = inr (s ++ chain c items, c + 2 * Z.of_nat (List.length items))
    /\ (List.length items <= 2)%nat.
Proof.
  intros Hs Hc Hb. unfold compileAction.
  destruct (str_eqb (verb (at_ actions i)) CutVerb) eqn:Ecut.
  - set (b1 := (0 <? i)%nat).
    set (b2 := (Z.of_nat i <? Z.of_nat (List.length actions) - 1)
               && negb (str_eqb (verb (at_ actions (i + 1))) CutVerb)).
    destruct b1, b2.
    + rewrite splice_exact by lia. rewrite splice_exact by lia.
      eexists [(_, _, _); (_, _, _)]. split; [|simpl; lia].
      rewrite <- app_assoc. cbn [chain app List.length].
      f_equal. apply f_equal2; [reflexivity | lia].
    + rewrite splice_exact by lia. eexists [(_, _, _)]. split; [reflexivity | simpl; lia].
    + rewrite splice_exact by lia. eexists [(_, _, _)]. split; [reflexivity | simpl; lia].
    + exists []. simpl. rewrite app_nil_r. split; [repeat f_equal; lia | lia].
  - destruct Hs as [Hs|Hs].
    + apply str_eqb_eq in Hs. congruence.
    + apply str_eqb_eq in Hs. rewrite Hs.
      rewrite splice_exact by lia. eexists [(_, _, _)]. split; [reflexivity | simpl; lia].
Qed.

Lemma compileFrom_chain actions n : forall i s c,
  (forall j, (i <= j < i + n)%nat -> supported (at_ actions j)) ->
  0 <= c -> c + 4 * Z.of_nat n < 2 ^ 63 ->
  exists items,
    compileFrom actions i n (s, c)
    = inr (s ++ chain c items, c + 2 * Z.of_nat (List.length items))
    /\ (List.length items <= 2 * n)%nat.
Proof.
  induction n as [|n IH]; intros i s c Hs Hc Hb.
  - exists []. simpl. rewrite app_nil_r. split; [repeat f_equal; lia | lia].
  - cbn [compileFrom].
    destruct (compileAction_chain actions i s c) as (it1 & -> & Hl1);
      [apply Hs; lia | lia | lia |].
    destruct (IH (S i) (s ++ chain c it1) (c + 2 * Z.of_nat (List.length it1)))
      as (it2 & -> & Hl2); [intros; apply Hs; lia | lia | lia |].
    exists (it1 ++ it2). rewrite chain_app, length_app, <- app_assoc.
    split; [|lia]. f_equal. apply f_equal2; [reflexivity | lia].
Qed.

Lemma compileFrom_add actions n : forall m i sc,
  compileFrom actions i (n + m) sc
  = match compileFrom actions i n sc with
    | inl r => inl r
    | inr sc' => compileFrom actions (i + n) m sc'
    end.
Proof.
  induction n as [|n IH]; intros m i sc.
  - cbn [compileFrom Nat.add]. rewrite Nat.add_0_r. reflexivity.
  - cbn [compileFrom Nat.add].
    destruct (compileAction actions i sc) as [r|sc']; [reflexivity|].
    rewrite IH. replace (S i + n)%nat with (i + S n)%nat by lia. reflexivity.
Qed.

Lemma compileFrom_snoc actions n i sc :
  compileFrom actions i (S n) sc
  = match compileFrom actions i n sc with
    | inl r => inl r
    | inr sc' => compileAction actions (i + n) sc'
    end.
Proof.
  rewrite <- Nat.add_1_r, compileFrom_add.
  destruct (compileFrom actions i n sc) as [r|sc']; [reflexivity|].
  cbn [compileFrom]. destruct (compileAction actions (i + n) sc'); reflexivity.
Qed.

Lemma Forall_at actions j :
  Forall supported actions -> (j < List.length actions)%nat -> supported (at_ actions j).
Proof.
  intros H Hj. unfold at_. rewrite Forall_forall in H. apply H. now apply nth_In.
Qed.

Lemma Some_eq {A} (x y : A) : Some x = Some y -> x = y.
Proof. congruence. Qed.

Ltac labels :=
  repeat match goal with
         | |- (_, _) = (_, _) => apply f_equal2
         | |- Some _ = Some _ => apply f_equal
         | |- vidSegment _ = vidSegment _ => apply f_equal; lia
         | |- audSegment _ = audSegment _ => apply f_equal; lia
         end.

(** What the statement at position [k] of a chain looks like. *)
Lemma chain_nth items : forall c k st tl,
  nth_error (chain c items ++ tl) k = Some st ->
  ((k < 2 * List.length items)%nat
   /\ is_trim st = Nat.even k
   /\ is_accumulated st = Nat.odd k
   /\ defines st = (vidSegment (c + Z.of_nat k + 1), audSegment (c + Z.of_nat k + 1))
   /\ concat_inputs st
      = if Nat.odd k
        then Some ((vidSegment (c + Z.of_nat k - 1), audSegment (c + Z.of_nat k - 1)),
                   (vidSegment (c + Z.of_nat k), audSegment (c + Z.of_nat k)))
        else None)
  \/ ((2 * List.length items <= k)%nat
      /\ nth_error tl (k - 2 * List.length items) = Some st).
Proof.
  induction items as [|[[ain s] e] r IH]; intros c k st tl H.
  - right. cbn [chain app List.length] in *. split; [lia|].
    replace (k - 2 * 0)%nat with k by lia. exact H.
  - cbn [chain app] in H. destruct k as [|[|k]].
    + left. cbn [nth_error] in H. inversion H; subst st.
      cbn [List.length is_trim is_accumulated defines concat_inputs Nat.even Nat.odd negb].
      split; [lia|]. split; [reflexivity|]. split; [reflexivity|].
      split; [|reflexivity]. labels.
    + left. cbn [nth_error] in H. inversion H; subst st.
      cbn [List.length is_trim is_accumulated defines concat_inputs].
      change (Nat.even 1) with false. change (Nat.odd 1) with true. cbv iota.
      split; [lia|]. split; [reflexivity|]. split; [reflexivity|].
      split; labels.
    + cbn [nth_error] in H. apply IH in H.
      destruct H as [(Hk & Ht & Ha & Hd & Hi)|(Hk & Hn)].
      * left. cbn [List.length].
        change (Nat.even (S (S k))) with (Nat.even k).
        replace (Nat.odd (S (S k))) with (Nat.odd k)
          by (unfold Nat.odd; reflexivity).
        replace (c + Z.of_nat (S (S k)) + 1) with (c + 2 + Z.of_nat k + 1) by lia.
        replace (c + Z.of_nat (S (S k)) - 1) with (c + 2 + Z.of_nat k - 1) by lia.
        replace (c + Z.of_nat (S (S k))) with (c + 2 + Z.of_nat k) by lia.
        split; [lia|]. auto.
      * right. cbn [List.length]. split; [lia|].
        replace (S (S k) - 2 * S (List.length r))%nat
          with (k - 2 * List.length r)%nat by lia.
        exact Hn.
Qed.


Lemma buildStmts_shape actions :
  actions <> [] ->
  Forall supported actions ->
  4 * Z.of_nat (List.length actions) + 2 < 2 ^ 63 ->
  exists items,
    buildStmts actions
    = (headStmt actions :: chain 0 items
         ++ tailStmts (SecondString (end_ (at_ actions (List.length actions - 1))))
              (2 * Z.of_nat (List.length items)),
       None).
Proof.
  intros Hne Hs Hb. unfold buildStmts.
  destruct actions as [|a0 rest]; [congruence|].
  set (actions := a0 :: rest) in *.
  destruct (compileFrom_chain actions (List.length actions) 0 [headStmt actions] 0)
    as (items & Hc & Hl); [intros; apply Forall_at; [assumption|lia] | lia | lia |].
  unfold headStmt in Hc. rewrite Hc.
  exists items. unfold tailStmts, prevVidSegment, prevAudSegment, headStmt.
  replace (0 + 2 * Z.of_nat (List.length items)) with (2 * Z.of_nat (List.length items)) by lia.
  rewrite (wrap64_id (2 * Z.of_nat (List.length items) + 1)) by lia.
  rewrite (wrap64_id (2 * Z.of_nat (List.length items) + 1 + -1)) by lia.
  replace (2 * Z.of_nat (List.length items) + 1 + -1)
    with (2 * Z.of_nat (List.length items)) by lia.
  cbn [app]. reflexivity.
Qed.

(** Position by position: the statement at [k] is a trim when [k] is odd
    and a concatenation (or the head) when [k] is even; it defines the
    labels numbered [k], the final concatenation apart; a concatenation
    reads the labels numbered [k-2] and [k-1]. *)
Lemma shape_nth h e items k st :
  defines h = (vidSegment 0, audSegment 0) ->
  is_trim h = false -> is_accumulated h = true -> concat_inputs h = None ->
  nth_error (h :: chain 0 items ++ tailStmts e (2 * Z.of_nat (List.length items))) k
  = Some st ->
  let last := (2 * List.length items + 2)%nat in
  (k <= last)%nat
  /\ is_trim st = Nat.odd k
  /\ is_accumulated st = Nat.even k && negb (k =? last)%nat
  /\ defines st = (if (k =? last)%nat then (lit "outv", lit "outa")
                   else (vidSegment (Z.of_nat k), audSegment (Z.of_nat k)))
  /\ concat_inputs st
     = if Nat.even k && (2 <=? k)%nat
       then Some ((vidSegment (Z.of_nat k - 2), audSegment (Z.of_nat k - 2)),
                  (vidSegment (Z.of_nat k - 1), audSegment (Z.of_nat k - 1)))
       else None.
Proof.
  intros Hd Ht Ha Hi H last.
  destruct k as [|k].
  - cbn [nth_error] in H. inversion H; subst st.
    rewrite Ht, Ha, Hd, Hi.
    destruct (Nat.eqb_spec 0 last) as [E|_]; [unfold last in E; lia|].
    split; [lia|]. repeat split.
  - cbn [nth_error] in H. apply chain_nth in H.
    rewrite Nat.odd_succ, Nat.even_succ.
    destruct H as [(Hk & Ht' & Ha' & Hd' & Hi')|(Hk & Hn)].
    + destruct (Nat.eqb_spec (S k) last) as [E|_]; [unfold last in E; lia|].
      rewrite Ht', Ha', Hd', Hi'. split; [unfold last; lia|].
      split; [reflexivity|]. split; [now rewrite andb_true_r|].
      split; [labels|].
      destruct (Nat.odd k) eqn:Eo; cbn [andb].
      * destruct (Nat.leb_spec 2 (S k)).
        -- labels.
        -- destruct k; [discriminate Eo | lia].
      * reflexivity.
    + unfold tailStmts in Hn.
      remember (k - 2 * List.length items)%nat as d eqn:Ed.
      destruct d as [|[|d]]; cbn [nth_error] in Hn.
      * apply Some_eq in Hn; subst st.
        assert (Ek : k = (2 * List.length items)%nat) by lia.
        destruct (Nat.eqb_spec (S k) last) as [E|_]; [unfold last in E; lia|].
        assert (Hev : Nat.even k = true)
          by (rewrite Ek, Nat.even_mul; reflexivity).
        rewrite Hev. rewrite <- Nat.negb_even, Hev.
        cbn [is_trim is_accumulated defines concat_inputs andb negb].
        split; [unfold last; lia|]. split; [reflexivity|]. split; [reflexivity|].
        split; [labels | reflexivity].
      * apply Some_eq in Hn; subst st.
        assert (Ek : k = (2 * List.length items + 1)%nat) by lia.
        destruct (Nat.eqb_spec (S k) last) as [_|E]; [|unfold last in E; lia].
        assert (Hev : Nat.odd k = true).
        { rewrite Ek, Nat.add_1_r, Nat.odd_succ, Nat.even_mul. reflexivity. }
        rewrite Hev. rewrite <- Nat.negb_odd, Hev.
        cbn [is_trim is_accumulated defines concat_inputs andb negb].
        split; [unfold last; lia|]. split; [reflexivity|]. split; [reflexivity|].
        split; [reflexivity|].
        destruct (Nat.leb_spec 2 (S k)); [|lia]. labels.
      * destruct d; discriminate Hn.
Qed.

Lemma loopState_step actions k :
  Forall supported actions ->
  (k < List.length actions)%nat ->
  4 * Z.of_nat (List.length actions) + 2 < 2 ^ 63 ->
  exists s c more,
    loopState actions k = inr (s, c)
    /\ loopState actions (S k) = inr (s ++ more, c + Z.of_nat (List.length more))
    /\ 0 <= c.
Proof.
  intros Hs Hk Hb. unfold loopState. rewrite compileFrom_snoc.
  destruct (compileFrom_chain actions k 0 [headStmt actions] 0)
    as (items & -> & Hl); [intros; apply Forall_at; [assumption|lia] | lia | lia |].
  destruct (compileAction_chain actions (0 + k) ([headStmt actions] ++ chain 0 items)
              (0 + 2 * Z.of_nat (List.length items)))
    as (it & -> & Hl'); [apply Forall_at; [assumption|lia] | lia | lia |].
  eexists _, _, (chain (0 + 2 * Z.of_nat (List.length items)) it).
  split; [reflexivity|]. split; [|lia].
  rewrite chain_length. f_equal. apply f_equal2; [reflexivity | lia].
Qed.

Lemma outv_not_video k : lit "outv" <> vidSegment k.
Proof. unfold vidSegment. cbn. discriminate. Qed.

Lemma video_not_audio j k : vidSegment j <> audSegment k.
Proof. unfold vidSegment, audSegment. cbn. discriminate. Qed.

Lemma outa_not_audio k : lit "outa" <> audSegment k.
Proof. unfold audSegment. cbn. discriminate. Qed.

(** C8: in the text compiled from a non-empty list of cuts and mutes, the
    statement at position [k] defines the labels numbered [k] (the last
    one defines [outv] and [outa]), so the counter grows with every
    statement; every concatenation reads the labels of the two statements
    just before it, the accumulated segment first and the new trim second;
    no label is defined twice. *)
Theorem segment_labels_chain actions :
  actions <> [] ->
  Forall supported actions ->
  4 * Z.of_nat (List.length actions) + 2 < 2 ^ 63 ->
  exists out,
    buildStmts actions = (out, None)
    /\ (forall k st, nth_error out k = Some st ->
          defines st = if (S k =? List.length out)%nat
                       then (lit "outv", lit "outa")
                       else (vidSegment (Z.of_nat k), audSegment (Z.of_nat k)))
    /\ (forall k st ins,
          nth_error out k = Some st -> concat_inputs st = Some ins ->
          exists acc new,
            (2 <= k)%nat
            /\ nth_error out (k - 2) = Some acc
            /\ nth_error out (k - 1) = Some new
            /\ is_accumulated acc = true
            /\ is_trim new = true
            /\ ins = (defines acc, defines new))
    /\ (forall j k sj sk,
          nth_error out j = Some sj -> nth_error out k = Some sk -> j <> k ->
          fst (defines sj) <> fst (defines sk)
          /\ snd (defines sj) <> snd (defines sk))
    /\ (forall j k sj sk,
          nth_error out j = Some sj -> nth_error out k = Some sk ->
          fst (defines sj) <> snd (defines sk))
    /\ (forall k, (k < List.length actions)%nat ->
          exists s c s' c',
            loopState actions k = inr (s, c)
            /\ loopState actions (S k) = inr (s', c')
            /\ c <= c').
Proof.
  intros Hne Hs Hb.
  destruct (buildStmts_shape actions Hne Hs Hb) as (items & Hout).
  eexists. split; [exact Hout|].
  set (out := headStmt actions :: _).
  set (last := (2 * List.length items + 2)%nat).
  assert (Hlen : List.length out = S last).
  { unfold out, last. cbn [List.length]. rewrite length_app, chain_length.
    cbn [tailStmts List.length]. lia. }
  assert (Hnth : forall k st, nth_error out k = Some st ->
            (k <= last)%nat
            /\ is_trim st = Nat.odd k
            /\ is_accumulated st = Nat.even k && negb (k =? last)%nat
            /\ defines st = (if (k =? last)%nat then (lit "outv", lit "outa")
                             else (vidSegment (Z.of_nat k), audSegment (Z.of_nat k)))
            /\ concat_inputs st
               = if Nat.even k && (2 <=? k)%nat
                 then Some ((vidSegment (Z.of_nat k - 2), audSegment (Z.of_nat k - 2)),
                            (vidSegment (Z.of_nat k - 1), audSegment (Z.of_nat k - 1)))
                 else None).
  { intros k st H. unfold out in H. eapply shape_nth; [| | | |exact H]; reflexivity. }
  clearbody out. repeat split.
  - (* the labels, in order *)
    intros k st H. destruct (Hnth k st H) as (_ & _ & _ & Hd & _).
    rewrite Hd, Hlen. reflexivity.
  - (* the inputs of a concatenation *)
    intros k st ins H Hi. destruct (Hnth k st H) as (Hk & _ & _ & _ & Hi').
    rewrite Hi in Hi'.
    destruct (Nat.even k) eqn:Ev; [|discriminate].
    destruct (Nat.leb_spec 2 k) as [H2|]; [|discriminate].
    cbn [andb] in Hi'. apply Some_eq in Hi'. subst ins.
    destruct k as [|[|k]]; [lia | lia |].
    replace (S (S k) - 2)%nat with k by lia.
    replace (S (S k) - 1)%nat with (S k) by lia.
    destruct (nth_error out k) as [acc|] eqn:Ea;
      [|apply nth_error_None in Ea; lia].
    destruct (nth_error out (S k)) as [new|] eqn:En;
      [|apply nth_error_None in En; lia].
    exists acc, new.
    destruct (Hnth k acc Ea) as (_ & _ & Haa & Hda & _).
    destruct (Hnth (S k) new En) as (_ & Htn & _ & Hdn & _).
    destruct (Nat.eqb_spec k last); [lia|].
    destruct (Nat.eqb_spec (S k) last); [lia|].
    change (Nat.even (S (S k))) with (Nat.even k) in Ev.
    rewrite Nat.odd_succ in Htn.
    rewrite Ev in Haa, Htn. rewrite Hda, Hdn.
    repeat split; auto. labels.
  - (* video labels are distinct *)
    destruct (Hnth j sj H) as (Hj & _ & _ & Hdj & _).
    destruct (Hnth k sk H0) as (Hk & _ & _ & Hdk & _).
    rewrite Hdj, Hdk.
    destruct (Nat.eqb_spec j last), (Nat.eqb_spec k last); cbn [fst]; try lia.
    + apply outv_not_video.
    + intro E. symmetry in E. revert E. apply outv_not_video.
    + intro E. apply vidSegment_inj in E; lia.
  - (* audio labels are distinct *)
    destruct (Hnth j sj H) as (Hj & _ & _ & Hdj & _).
    destruct (Hnth k sk H0) as (Hk & _ & _ & Hdk & _).
    rewrite Hdj, Hdk.
    destruct (Nat.eqb_spec j last), (Nat.eqb_spec k last); cbn [snd]; try lia.
    + apply outa_not_audio.
    + intro E. symmetry in E. revert E. apply outa_not_audio.
    + intro E. apply audSegment_inj in E; lia.
  - (* a video label is no audio label *)
    intros j k sj sk Hj Hk.
    destruct (Hnth j sj Hj) as (_ & _ & _ & Hdj & _).
    destruct (Hnth k sk Hk) as (_ & _ & _ & Hdk & _).
    rewrite Hdj, Hdk.
    destruct (j =? last)%nat, (k =? last)%nat; cbn [fst snd].
    + cbn. discriminate.
    + intro E. symmetry in E. revert E. unfold audSegment. cbn. discriminate.
    + unfold vidSegment. cbn. discriminate.
    + apply video_not_audio.
  - (* the counter *)
    intros k Hk.
    destruct (loopState_step actions k Hs Hk Hb) as (s & c & more & H1 & H2 & H3).
    exists s, c, (s ++ more), (c + Z.of_nat (List.length more)).
    repeat split; auto. lia.
Qed.


Lemma splice_mod ain st en s c :
  in_int64 c ->
  splice ain st en (s, c)
  = (s ++ spliceStmts ain st en c, wrap64 (wrap64 (c + 1) + 1)).
Proof.
  intro Hc. unfold splice, spliceStmts, prevVidSegment, prevAudSegment.
  rewrite !wrap64_add_l.
  replace (wrap64 (c + 1) + 1 + -2) with (wrap64 (c + 1) + -1) by ring.
  replace (wrap64 (c + 1) + 1 + -1) with (wrap64 (c + 1) + 0) by ring.
  rewrite !wrap64_add_l.
  replace (c + 1 + -1) with c by ring.
  replace (c + 1 + 0) with (c + 1) by ring.
  rewrite (wrap64_id c) by exact Hc.
  rewrite <- app_assoc. reflexivity.
Qed.

Lemma splice_accumulated ain st en sc :
  accumulated_at sc ->
  accumulated_at (splice ain st en sc)
  /\ exists more, fst (splice ain st en sc) = fst sc ++ more.
Proof.
  destruct sc as [s c]. intros (Hc & _). cbn [fst snd] in Hc.
  rewrite splice_mod by exact Hc. split.
  - split; [apply wrap64_range|]. cbn [fst snd].
    eexists (s ++ [_]), _. unfold spliceStmts.
    split; [rewrite <- app_assoc; reflexivity|]. split; reflexivity.
  - eexists. reflexivity.
Qed.

Lemma compileAction_accumulated actions i sc :
  supported (at_ actions i) ->
  accumulated_at sc ->
  exists sc' more,
    compileAction actions i sc = inr sc'
    /\ accumulated_at sc'
    /\ fst sc' = fst sc ++ more.
Proof.
  intros Hs Hinv. unfold compileAction.
  destruct (str_eqb (verb (at_ actions i)) CutVerb) eqn:Ecut.
  - match goal with
    | |- context [if (0 <? i)%nat then ?x else _] =>
        assert (H1 : accumulated_at (if (0 <? i)%nat then x else sc)
                     /\ exists more, fst (if (0 <? i)%nat then x else sc) = fst sc ++ more)
    end.
    { destruct (0 <? i)%nat.
      - now apply splice_accumulated.
      - split; [assumption|]. exists []. now rewrite app_nil_r. }
    destruct H1 as (H1 & m1 & E1).
    match goal with
    | |- context [if ?b then splice ?a ?x ?y ?z else _] =>
        destruct b;
        [destruct (splice_accumulated a x y z H1) as (H2 & m2 & E2)|]
    end.
    + eexists _, (m1 ++ m2). split; [reflexivity|]. split; [assumption|].
      rewrite E2, E1, app_assoc. reflexivity.
    + eexists _, m1. split; [reflexivity|]. split; assumption.
  - destruct Hs as [Hs|Hs].
    + apply str_eqb_eq in Hs. congruence.
    + apply str_eqb_eq in Hs. rewrite Hs.
      match goal with
      | |- context [splice ?a ?x ?y ?z] =>
          destruct (splice_accumulated a x y z Hinv) as (H2 & m2 & E2)
      end.
      eexists _, m2. split; [reflexivity|]. split; assumption.
Qed.

Lemma compileFrom_accumulated actions n : forall i sc,
  (forall j, (i <= j < i + n)%nat -> supported (at_ actions j)) ->
  accumulated_at sc ->
  exists sc' more,
    compileFrom actions i n sc = inr sc'
    /\ accumulated_at sc'
    /\ fst sc' = fst sc ++ more.
Proof.
  induction n as [|n IH]; intros i sc Hs Hinv.
  - exists sc, []. rewrite app_nil_r. auto.
  - cbn [compileFrom].
    destruct (compileAction_accumulated actions i sc) as (sc1 & m1 & -> & H1 & E1);
      [apply Hs; lia | assumption |].
    destruct (IH (S i) sc1) as (sc2 & m2 & -> & H2 & E2);
      [intros; apply Hs; lia | assumption |].
    exists sc2, (m1 ++ m2). split; [reflexivity|]. split; [assumption|].
    rewrite E2, E1, app_assoc. reflexivity.
Qed.

Lemma head_accumulated actions : accumulated_at ([headStmt actions], 0).
Proof.
  split; [cbn; unfold in_int64; lia|].
  exists [], (headStmt actions). repeat split.
Qed.

Lemma buildStmts_nonempty actions :
  actions <> [] ->
  buildStmts actions
  = match loopState actions (List.length actions) with
    | inl (s, e) => (s, Some e)
    | inr (s, c) =>
        let lastAction := at_ actions (List.length actions - 1) in
        let c' := wrap64 (c + 1) in
        (s ++ [Tail (SecondString (end_ lastAction)) (vidSegment c')
                    (SecondString (end_ lastAction)) (audSegment c');
               FinalConcat (prevVidSegment c' (-1)) (vidSegment c') (lit "outv")
                           (prevAudSegment c' (-1)) (audSegment c') (lit "outa")],
         None)
    end.
Proof.
  intro Hne. destruct actions; [congruence | reflexivity].
Qed.

Lemma buildStmts_from_loop actions k s c :
  Forall supported actions ->
  (k <= List.length actions)%nat ->
  actions <> [] ->
  loopState actions k = inr (s, c) ->
  exists post, buildStmts actions = (s ++ post, None).
Proof.
  intros Hs Hk Hne Hloop. rewrite buildStmts_nonempty by assumption.
  assert (Hacc : accumulated_at (s, c)).
  { destruct (compileFrom_accumulated actions k 0 ([headStmt actions], 0))
      as (sc' & m & E & H & _);
      [intros; apply Forall_at; [assumption|lia] | apply head_accumulated |].
    unfold loopState in Hloop. rewrite Hloop in E. injection E as <-. exact H. }
  destruct (compileFrom_accumulated actions (List.length actions - k) (0 + k) (s, c))
    as ([s' c'] & m & E' & _ & E);
    [intros; apply Forall_at; [assumption|lia] | assumption |].
  assert (Hfull : loopState actions (List.length actions) = inr (s', c')).
  { unfold loopState in *.
    replace (List.length actions) with (k + (List.length actions - k))%nat at 1 by lia.
    rewrite compileFrom_add, Hloop. exact E'. }
  rewrite Hfull. cbn [fst] in E. subst s'. eexists. cbv zeta.
  rewrite <- app_assoc. reflexivity.
Qed.

(** C3: a Mute action adds two statements to the text: a trim pair whose
    video reads [0:v] and whose audio reads the silence [1:a], both over
    the start and end of the action and both labelled with the next
    counter value, then one concatenation of the accumulated segment with
    that new segment. *)
Theorem mute_contributes_muted_segment actions i :
  Forall supported actions ->
  (i < List.length actions)%nat ->
  verb (at_ actions i) = MuteVerb ->
  exists s0 acc c post,
    loopState actions i = inr (s0 ++ [acc], c)
    /\ is_accumulated acc = true
    /\ defines acc = (vidSegment c, audSegment c)
    /\ let c1 := wrap64 (c + 1) in
       let c2 := wrap64 (c1 + 1) in
       let st := SecondString (start (at_ actions i)) in
       let en := SecondString (end_ (at_ actions i)) in
       let seg := Seg Silence st en (vidSegment c1) st en (audSegment c1) in
       let cat := Concat (vidSegment c) (vidSegment c1) (vidSegment c2)
                         (audSegment c) (audSegment c1) (audSegment c2) in
       loopState actions (S i) = inr (s0 ++ [acc; seg; cat], c2)
       /\ buildStmts actions = (s0 ++ [acc; seg; cat] ++ post, None)
       /\ render seg
          = lit "[0:v]trim=start=" ++ st ++ lit ":end=" ++ en
            ++ lit ",setpts=PTS-STARTPTS[" ++ vidSegment c1
            ++ lit "];[1:a]atrim=start=" ++ st ++ lit ":end=" ++ en
            ++ lit ",asetpts=PTS-STARTPTS[" ++ audSegment c1 ++ lit "];".
Proof.
  intros Hs Hi Hv.
  destruct (compileFrom_accumulated actions i 0 ([headStmt actions], 0))
    as ([s c] & m & Hloop & (Hc & s0 & acc & Es & Ha & Hd) & _);
    [intros; apply Forall_at; [assumption|lia] | apply head_accumulated |].
  cbn [fst snd] in *. subst s.
  assert (Hnext : loopState actions (S i)
                  = inr ((s0 ++ [acc])
                         ++ spliceStmts Silence (SecondString (start (at_ actions i)))
                              (SecondString (end_ (at_ actions i))) c,
                         wrap64 (wrap64 (c + 1) + 1))).
  { unfold loopState. rewrite compileFrom_snoc, Hloop. cbn [Nat.add].
    unfold compileAction. rewrite Hv.
    change (str_eqb MuteVerb CutVerb) with false.
    change (str_eqb MuteVerb MuteVerb) with true. cbv iota.
    now rewrite splice_mod. }
  assert (Hne : actions <> []) by (destruct actions; [simpl in Hi; lia | discriminate]).
  destruct (buildStmts_from_loop actions (S i) _ _ Hs ltac:(lia) Hne Hnext) as (post & Hb).
  exists s0, acc, c, post.
  split; [exact Hloop|]. split; [exact Ha|]. split; [exact Hd|].
  cbv zeta. unfold spliceStmts in *. rewrite <- app_assoc in Hnext, Hb.
  split; [exact Hnext|]. split; [|cbn [render lit app]; reflexivity].
  rewrite Hb. rewrite <- app_assoc. reflexivity.
Qed.


(** C2, refuted: [cut 0:10-0:20] followed by [cut 0:25-0:30] is a valid
    list of two consecutive cuts, and the text has the trim of the
    original tracks over 20.00 to 25.00, the interval between them. *)
Lemma adjacent_cuts_do_not_fuse :
  validateSegmentTimes two_cuts = None
  /\ verb (at_ two_cuts 0) = CutVerb
  /\ verb (at_ two_cuts 1) = CutVerb
  /\ SecondString (end_ (at_ two_cuts 0)) = lit "20.00"
  /\ SecondString (start (at_ two_cuts 1)) = lit "25.00"
  /\ gap_segment_emitted two_cuts 0.
Proof.
  repeat split; try (vm_compute; reflexivity).
  exists (lit "video1"), (lit "audio1"). vm_compute. right. left. reflexivity.
Qed.

(** C2, amended: of two consecutive cuts the first emits no segment
    after itself, and the second emits the segment between them as the
    segment before itself; the two iterations add the segment before the
    first cut (unless it is the first action), the segment between the
    cuts, and the segment after the second cut (when the next action is
    no cut), each with its concatenation, and nothing else. *)
Theorem adjacent_cuts_emit_gap_once actions i :
  Forall supported actions ->
  (S i < List.length actions)%nat ->
  verb (at_ actions i) = CutVerb ->
  verb (at_ actions (S i)) = CutVerb ->
  4 * Z.of_nat (List.length actions) + 2 < 2 ^ 63 ->
  exists s c,
    loopState actions i = inr (s, c)
    /\ let before :=
         if (0 <? i)%nat
         then [(Original, SecondString (end_ (at_ actions (i - 1))),
                          SecondString (start (at_ actions i)))]
         else [] in
       let gap := (Original, SecondString (end_ (at_ actions i)),
                             SecondString (start (at_ actions (S i)))) in
       let after :=
         if (S (S i) <? List.length actions)%nat
            && negb (str_eqb (verb (at_ actions (S (S i)))) CutVerb)
         then [(Original, SecondString (end_ (at_ actions (S i))),
                          SecondString (start (at_ actions (S (S i)))))]
         else [] in
       loopState actions (S i)
       = inr (s ++ chain c before, c + 2 * Z.of_nat (List.length before))
       /\ loopState actions (S (S i))
          = inr (s ++ chain c (before ++ gap :: after),
                 c + 2 * Z.of_nat (List.length (before ++ gap :: after))).
Proof.
  intros Hs Hi Hv Hv' Hb.
  destruct (compileFrom_chain actions i 0 [headStmt actions] 0)
    as (items & Hloop & Hl); [intros; apply Forall_at; [assumption|lia] | lia | lia |].
  set (s := [headStmt actions] ++ chain 0 items) in *.
  set (c := 0 + 2 * Z.of_nat (List.length items)) in *.
  assert (Hc : 0 <= c /\ c + 6 < 2 ^ 63) by (unfold c; lia).
  exists s, c. split; [exact Hloop|]. cbv zeta.
  set (before := if (0 <? i)%nat then _ else []).
  assert (H1 : loopState actions (S i)
               = inr (s ++ chain c before, c + 2 * Z.of_nat (List.length before))).
  { unfold loopState. rewrite compileFrom_snoc. fold (loopState actions i).
    unfold loopState at 1. rewrite Hloop. cbn [Nat.add].
    unfold compileAction. rewrite Hv.
    change (str_eqb CutVerb CutVerb) with true. cbv iota.
    replace (i + 1)%nat with (S i) by lia. rewrite Hv'.
    change (str_eqb CutVerb CutVerb) with true.
    cbn [negb]. rewrite andb_false_r.
    unfold before. destruct (0 <? i)%nat.
    - rewrite splice_exact by lia. reflexivity.
    - cbn [chain List.length]. rewrite app_nil_r. f_equal. apply f_equal2; [reflexivity|lia]. }
  split; [exact H1|].
  unfold loopState. rewrite compileFrom_snoc. fold (loopState actions (S i)).
  rewrite H1. cbn [Nat.add].
  unfold compileAction. rewrite Hv'.
  change (str_eqb CutVerb CutVerb) with true. cbv iota.
  change (0 <? S i)%nat with true. cbv iota.
  replace (S i - 1)%nat with i by lia.
  replace (S i + 1)%nat with (S (S i)) by lia.
  assert (Hlen : (List.length before <= 1)%nat)
    by (unfold before; destruct (0 <? i)%nat; cbn; lia).
  rewrite splice_exact by lia.
  replace (Z.of_nat (S i) <? Z.of_nat (List.length actions) - 1)
    with (S (S i) <? List.length actions)%nat.
  2:{ destruct (Nat.ltb_spec (S (S i)) (List.length actions)),
        (Z.ltb_spec (Z.of_nat (S i)) (Z.of_nat (List.length actions) - 1));
      try reflexivity; lia. }
  destruct ((S (S i) <? List.length actions)%nat
            && negb (str_eqb (verb (at_ actions (S (S i)))) CutVerb)).
  - rewrite splice_exact by lia.
    rewrite <- !app_assoc.
    rewrite (chain_app before c). cbn [chain app].
    rewrite !length_app. cbn [List.length].
    f_equal. apply f_equal2; [reflexivity | lia].
  - rewrite <- !app_assoc. rewrite (chain_app before c).
    rewrite !length_app. cbn [List.length].
    f_equal. apply f_equal2; [reflexivity | lia].
Qed.

(** ** Floats: a difference of ordered numbers is not positive *)

Lemma digits2_pos_bounds m :
  2 ^ (Zpos (digits2_pos m) - 1) <= Zpos m < 2 ^ Zpos (digits2_pos m).
Proof.
  induction m as [m IH|m IH|]; cbn [digits2_pos].
  - rewrite Pos2Z.inj_succ, Pos2Z.inj_xI.
    replace (Z.succ (Zpos (digits2_pos m)) - 1) with (Z.succ (Zpos (digits2_pos m) - 1)) by lia.
    rewrite !Z.pow_succ_r by lia.
    revert IH. generalize (2 ^ (Zpos (digits2_pos m) - 1)) (2 ^ Zpos (digits2_pos m)).
    intros a b IH. lia.
  - rewrite Pos2Z.inj_succ, (Pos2Z.inj_xO m).
    replace (Z.succ (Zpos (digits2_pos m)) - 1) with (Z.succ (Zpos (digits2_pos m) - 1)) by lia.
    rewrite !Z.pow_succ_r by lia.
    revert IH. generalize (2 ^ (Zpos (digits2_pos m) - 1)) (2 ^ Zpos (digits2_pos m)).
    intros a b IH. lia.
  - cbn. lia.
Qed.

Lemma pos_iter_xO m d : Zpos (Pos.iter xO m d) = Zpos m * 2 ^ Zpos d.
Proof.
  induction d as [|d IH] using Pos.peano_ind.
  - cbn. lia.
  - rewrite Pos.iter_succ, (Pos2Z.inj_xO (Pos.iter xO m d)), IH, Pos2Z.inj_succ,
      Z.pow_succ_r by lia. ring.
Qed.

Lemma shl_align_value mx ex ez :
  ez <= ex -> Zpos (fst (shl_align mx ex ez)) = Zpos mx * 2 ^ (ex - ez).
Proof.
  intro H. unfold shl_align.
  destruct (ez - ex) as [|d|d] eqn:E.
  - replace (ex - ez) with 0 by lia. cbn [fst]. lia.
  - lia.
  - cbn [fst]. rewrite pos_iter_xO. f_equal. f_equal. lia.
Qed.

Lemma shr_1_nonneg mrs : 0 <= shr_m mrs -> 0 <= shr_m (shr_1 mrs).
Proof.
  destruct mrs as [m r s]. cbn [shr_m]. intro H. unfold shr_1.
  destruct m as [|[p|p|]|[p|p|]]; cbn [shr_m]; lia.
Qed.

Lemma iter_shr_1_nonneg p : forall mrs,
  0 <= shr_m mrs -> 0 <= shr_m (SpecFloat.iter_pos shr_1 p mrs).
Proof.
  induction p as [p IH|p IH|]; intros mrs H; cbn [SpecFloat.iter_pos].
  - apply IH, IH, shr_1_nonneg, H.
  - apply IH, IH, H.
  - apply shr_1_nonneg, H.
Qed.

Lemma shr_fexp_nonneg m e l :
  0 <= m -> 0 <= shr_m (fst (shr_fexp prec emax m e l)).
Proof.
  intro H. unfold shr_fexp, shr.
  assert (H0 : 0 <= shr_m (shr_record_of_loc m l))
    by (destruct l as [|[| |]]; exact H).
  destruct (fexp prec emax (Zdigits2 m + e) - e); cbn [fst]; auto.
  now apply iter_shr_1_nonneg.
Qed.

Lemma round_nearest_even_nonneg m l : 0 <= m -> 0 <= round_nearest_even m l.
Proof.
  intro H. unfold round_nearest_even.
  destruct l as [|[| |]]; try lia. destruct (Z.even m); lia.
Qed.


Lemma binary_round_aux_sign m e l :
  0 <= m -> not_positive (binary_round_aux prec emax true m e l) = true.
Proof.
  intro H. unfold binary_round_aux.
  pose proof (shr_fexp_nonneg m e l H) as H1.
  destruct (shr_fexp prec emax m e l) as [mrs' e'] eqn:E1. cbn [fst] in H1.
  pose proof (shr_fexp_nonneg _ e' loc_Exact
                (round_nearest_even_nonneg (shr_m mrs') (loc_of_shr_record mrs') H1)) as H2.
  destruct (shr_fexp prec emax _ e' loc_Exact) as [mrs'' e''] eqn:E2. cbn [fst] in H2.
  destruct (shr_m mrs'') as [|p|p]; [reflexivity| |lia].
  destruct (e'' <=? emax - prec); reflexivity.
Qed.

Lemma binary_normalize_neg z e :
  z < 0 -> not_positive (binary_normalize prec emax z e false) = true.
Proof.
  intro H. destruct z as [|p|p]; try lia.
  unfold binary_normalize, binary_round.
  destruct (shl_align p e _) as [mz ez].
  apply binary_round_aux_sign. lia.
Qed.

Lemma valid_finite m e :
  valid_binary (S754_finite false m e) = true ->
  emin <= e /\ Zpos (digits2_pos m) <= prec
  /\ (emin < e -> Zpos (digits2_pos m) = prec).
Proof.
  unfold SpecFloat.valid_binary, bounded, canonical_mantissa, fexp. intro H.
  apply andb_true_iff in H as [H _]. apply Z.eqb_eq in H.
  unfold FloatOps.prec, FloatOps.emax, SpecFloat.emin in *. lia.
Qed.

(** On canonical mantissas the order of the exponents decides. *)
Lemma mantissa_lt mx ex my ey :
  valid_binary (S754_finite false mx ex) = true ->
  valid_binary (S754_finite false my ey) = true ->
  ex < ey ->
  Zpos mx < Zpos my * 2 ^ (ey - ex).
Proof.
  intros Hx Hy Hlt.
  apply valid_finite in Hx as (Hex & Hdx & _).
  apply valid_finite in Hy as (Hey & Hdy & Hny).
  specialize (Hny ltac:(lia)).
  pose proof (digits2_pos_bounds mx) as Bx.
  pose proof (digits2_pos_bounds my) as By.
  rewrite Hny in By.
  assert (Zpos mx < 2 ^ prec).
  { eapply Z.lt_le_trans; [apply Bx|]. apply Z.pow_le_mono_r; lia. }
  assert (2 ^ prec = 2 * 2 ^ (prec - 1)).
  { reflexivity. }
  assert (2 <= 2 ^ (ey - ex)).
  { change 2 with (2 ^ 1) at 1. apply Z.pow_le_mono_r; lia. }
  nia.
Qed.

Lemma valid_sign s m e :
  valid_binary (S754_finite s m e) = valid_binary (S754_finite false m e).
Proof. reflexivity. Qed.

Lemma SFsub_lt x y :
  valid_binary x = true -> valid_binary y = true ->
  SFltb x y = true ->
  not_positive (SF64sub x y) = true.
Proof.
  intros Vx Vy Hlt. unfold SFltb in Hlt.
  destruct x as [sx|sx| |sx mx ex], y as [sy|sy| |sy my ey];
    cbn [SFcompare] in Hlt; try discriminate;
    try (destruct sx; try discriminate); try (destruct sy; try discriminate);
    try reflexivity.
  - (* both negative *)
    unfold SF64sub, SFsub. apply binary_normalize_neg. cbn [cond_Zopp].
    rewrite !shl_align_value by lia.
    rewrite valid_sign in Vx, Vy.
    revert Hlt. destruct (Z.compare_spec ex ey) as [E|Hl|Hg]; intro Hlt;
      try discriminate.
    + subst ey. rewrite Z.min_id, Z.sub_diag, Z.pow_0_r.
      destruct (Pos.compare_cont Eq mx my) eqn:C; try discriminate.
      pose proof (proj1 (Pos.compare_gt_iff mx my) C). lia.
    + rewrite Z.min_r by lia. rewrite Z.sub_diag, Z.pow_0_r.
      pose proof (mantissa_lt my ey mx ex Vy Vx Hg). lia.
  - (* x negative, y positive *)
    unfold SF64sub, SFsub. apply binary_normalize_neg.
    cbn [cond_Zopp]. lia.
  - (* both positive *)
    unfold SF64sub, SFsub. apply binary_normalize_neg. cbn [cond_Zopp].
    rewrite !shl_align_value by lia.
    revert Hlt. destruct (Z.compare_spec ex ey) as [E|Hl|Hg]; intro Hlt;
      try discriminate.
    + subst ey. rewrite Z.min_id, Z.sub_diag, Z.pow_0_r.
      destruct (Pos.compare_cont Eq mx my) eqn:C; try discriminate.
      pose proof (proj1 (Pos.compare_lt_iff mx my) C). lia.
    + rewrite Z.min_l by lia. rewrite Z.sub_diag, Z.pow_0_r.
      pose proof (mantissa_lt mx ex my ey Vx Vy Hl). lia.
Qed.

Lemma not_positive_lt_threshold r :
  not_positive r = true -> SFltb r (Prim2SF threshold) = true.
Proof.
  intro H. change (Prim2SF threshold) with (S754_finite false 4611686018427388 (-62)).
  destruct r as [s|s| |s m e]; cbn in H; try discriminate; subst; reflexivity.
Qed.

(** A number below another one is less than [threshold] above it. *)
Lemma lt_sub_threshold (a b : float) :
  (a <? b)%float = true -> (a - b <? threshold)%float = true.
Proof.
  intro H. rewrite ltb_spec in *. rewrite sub_spec.
  apply not_positive_lt_threshold, SFsub_lt; auto using Prim2SF_valid.
Qed.


(** ** The validator *)

Lemma checkAction_within actions i :
  within_ok (at_ actions i) = true ->
  checkAction actions i = if (0 <? i)%nat then crossCheck actions i else None.
Proof.
  unfold within_ok, checkAction, crossCheck. intro H.
  destruct (tokens (at_ actions i)); [discriminate|].
  apply andb_true_iff in H as [H2 H3].
  apply negb_true_iff in H2, H3.
  rewrite H2, H3. reflexivity.
Qed.

(** With the within-action checks passed, the loop reports the first
    failing cross-action check. *)
Lemma validateFrom_first actions n : forall k,
  (forall j, (k <= j < k + n)%nat -> within_ok (at_ actions j) = true) ->
  (validateFrom actions k n = None
   /\ forall j, (k <= j < k + n)%nat -> (0 < j)%nat -> crossCheck actions j = None)
  \/ exists j,
       (k <= j < k + n)%nat /\ (0 < j)%nat
       /\ validateFrom actions k n = crossCheck actions j
       /\ crossCheck actions j <> None
       /\ forall j', (k <= j' < j)%nat -> (0 < j')%nat -> crossCheck actions j' = None.
Proof.
  induction n as [|n IH]; intros k Hw.
  - left. split; [reflexivity|]. intros; lia.
  - cbn [validateFrom]. rewrite checkAction_within by (apply Hw; lia).
    destruct (Nat.ltb_spec 0 k) as [Hk|Hk].
    + destruct (crossCheck actions k) as [e|] eqn:E.
      * right. exists k. rewrite E. repeat split; try lia; try discriminate.
      * destruct (IH (S k)) as [[Hn Ha]|(j & Hj & Hj0 & Hv & Hne & Hfirst)];
          [intros; apply Hw; lia | |].
        -- left. split; [exact Hn|]. intros j Hj Hj0.
           destruct (Nat.eq_dec j k) as [->|]; [exact E | apply Ha; lia].
        -- right. exists j. repeat split; auto; try lia.
           intros j' Hj' Hj'0.
           destruct (Nat.eq_dec j' k) as [->|]; [exact E | apply Hfirst; lia].
    + destruct (IH (S k)) as [[Hn Ha]|(j & Hj & Hj0 & Hv & Hne & Hfirst)];
        [intros; apply Hw; lia | |].
      * left. split; [exact Hn|]. intros j Hj Hj0. apply Ha; lia.
      * right. exists j. repeat split; auto; try lia.
        intros j' Hj' Hj'0. apply Hfirst; lia.
Qed.

Lemma crossCheck_overlap actions i :
  (SecondNum (start (at_ actions i)) <? SecondNum (end_ (at_ actions (i - 1))))%float = true ->
  crossCheck actions i
  = Some (if (SecondNum (end_ (at_ actions i))
              <? SecondNum (start (at_ actions (i - 1))))%float
          then OutOfOrder (firstLine (at_ actions (i - 1))) (firstLine (at_ actions i))
          else OverlapOrClose (firstLine (at_ actions (i - 1))) (firstLine (at_ actions i))).
Proof.
  intro H. unfold crossCheck.
  destruct (SecondNum (end_ (at_ actions i))
            <? SecondNum (start (at_ actions (i - 1))))%float; [reflexivity|].
  rewrite (lt_sub_threshold _ _ H). reflexivity.
Qed.

(** C1, refuted: in [cut 0:10-0:20], [mute 0:15-0:18] both actions pass
    the within-action checks and the second starts before the first ends,
    yet the validator reports an overlap, not an out-of-order error. *)
Lemma overlap_is_not_out_of_order :
  forallb within_ok scenario_D = true
  /\ (SecondNum (start (at_ scenario_D 1)) <? SecondNum (end_ (at_ scenario_D 0)))%float = true
  /\ validateSegmentTimes scenario_D = Some (OverlapOrClose 1 2)
  /\ forall l1 l2, validateSegmentTimes scenario_D <> Some (OutOfOrder l1 l2).
Proof.
  repeat split; try (vm_compute; reflexivity).
  intros l1 l2. vm_compute. discriminate.
Qed.

(** C1, amended: when every action passes the within-action checks and
    some action starts before the previous one ends, the validator fails
    with a cross-action error.  At the first index [i] with such a pair
    the error is the out-of-order one when action [i] ends before the
    previous action starts, and the overlap one otherwise; the
    out-of-order test comes first. *)
Theorem start_before_previous_end actions i :
  (0 < i < List.length actions)%nat ->
  (forall j, (j < List.length actions)%nat -> within_ok (at_ actions j) = true) ->
  (SecondNum (start (at_ actions i)) <? SecondNum (end_ (at_ actions (i - 1))))%float = true ->
  (exists l1 l2, validateSegmentTimes actions = Some (OutOfOrder l1 l2)
                 \/ validateSegmentTimes actions = Some (OverlapOrClose l1 l2))
  /\ ((forall j, (0 < j < i)%nat -> crossCheck actions j = None) ->
      validateSegmentTimes actions
      = Some (if (SecondNum (end_ (at_ actions i))
                  <? SecondNum (start (at_ actions (i - 1))))%float
              then OutOfOrder (firstLine (at_ actions (i - 1))) (firstLine (at_ actions i))
              else OverlapOrClose (firstLine (at_ actions (i - 1))) (firstLine (at_ actions i)))).
Proof.
  intros Hi Hw Hlt.
  pose proof (crossCheck_overlap actions i Hlt) as Hc.
  unfold validateSegmentTimes.
  destruct (validateFrom_first actions (List.length actions) 0)
    as [[_ Ha]|(j & Hj & Hj0 & Hv & Hne & Hfirst)]; [intros; apply Hw; lia | |].
  - rewrite Ha in Hc by lia. discriminate.
  - split.
    + rewrite Hv. clear Hc. unfold crossCheck in *.
      destruct (SecondNum (end_ (at_ actions j))
                <? SecondNum (start (at_ actions (j - 1))))%float;
        [eexists _, _; left; reflexivity|].
      destruct (SecondNum (start (at_ actions j))
                - SecondNum (end_ (at_ actions (j - 1))) <? threshold)%float;
        [eexists _, _; right; reflexivity|].
      congruence.
    + intro Hbefore.
      assert (j = i).
      { destruct (Nat.lt_trichotomy j i) as [Hlt'|[E|Hgt]]; [|exact E|].
        - rewrite Hbefore in Hne by lia. congruence.
        - rewrite Hfirst in Hc by lia. discriminate. }
      subst j. rewrite Hv. exact Hc.
Qed.


(** ** The time parser *)

Lemma Split_no_sep sep s : ~ In sep s -> Split sep s = [s].
Proof.
  induction s as [|c s IH]; intro H; [reflexivity|].
  cbn [Split]. destruct (Z.eqb_spec c sep) as [->|_].
  - exfalso. apply H. now left.
  - rewrite IH; [reflexivity|]. intro Hin. apply H. now right.
Qed.

Lemma Split_app sep a b : ~ In sep a -> Split sep (a ++ sep :: b) = a :: Split sep b.
Proof.
  induction a as [|c a IH]; intro H.
  - cbn [app Split]. rewrite Z.eqb_refl. reflexivity.
  - cbn [app Split]. destruct (Z.eqb_spec c sep) as [->|_].
    + exfalso. apply H. now left.
    + rewrite IH; [reflexivity|]. intro Hin. apply H. now right.
Qed.

Lemma wrap64_0_l z : wrap64 (wrap64 (wrap64 (0 * 60) * 60) + wrap64 z) = wrap64 z.
Proof.
  change (wrap64 (wrap64 (0 * 60) * 60)) with 0. rewrite Z.add_0_l.
  apply wrap64_id, wrap64_range.
Qed.

(** C4, refuted: [2:19.2] is accepted, but the seconds are rounded to a
    float32, and the total differs from 2*60 + 19.2 by more than 1e-9
    (it is 139.200000762939453125). *)
Lemma float32_seconds_exceed_tolerance :
  let t := mkTime 0 2 (19.200000762939453125)%float in
  ParseTime (lit "2:19.2") = inr t
  /\ Atoi (lit "2") = inr 2
  /\ literal_value (lit "19.2") = Some (Qmake 192 10)
  /\ float_value (SecondNum t) = Some (Qmake 4897664621608960 35184372088832)
  /\ ~ within_tolerance (lit "2") (lit "19.2") t.
Proof.
  cbv zeta.
  split; [vm_compute; reflexivity|]. split; [vm_compute; reflexivity|].
  split; [vm_compute; reflexivity|]. split; [vm_compute; reflexivity|].
  intros (min & sec & total & Hm & Hs & Ht & Hle).
  assert (Es : sec = Qmake 192 10) by (vm_compute in Hs; congruence).
  assert (Et : total = Qmake 4897664621608960 35184372088832)
    by (vm_compute in Ht; congruence).
  assert (Em : min = 2) by (vm_compute in Hm; congruence).
  subst. vm_compute in Hle. apply Hle. reflexivity.
Qed.

(** C4, amended: for a literal [M:S] the parser takes the minute from
    [Atoi] and the seconds from [ParseFloat] at 32 bits, so an accepted
    literal gives hour 0, the integer minute, the seconds rounded to the
    nearest float32, and a total of [float64(minute*60)] plus those
    rounded seconds. *)
Theorem ParseTime_minute_second timeStr M S :
  TrimSpace timeStr = M ++ 58 :: S ->
  ~ In 58 M -> ~ In 58 S ->
  ParseTime timeStr
  = match Atoi (default00 M) with
    | inl e => inl (BadMinute (default00 M) e)
    | inr min =>
        match ParseFloat32 (default00 S) with
        | inl e => inl (BadSecond (default00 S) e)
        | inr sec => inr (mkTime 0 min sec)
        end
    end
  /\ forall t,
       ParseTime timeStr = inr t ->
       Hour t = 0
       /\ Atoi (default00 M) = inr (Minute t)
       /\ ParseFloat32 (default00 S) = inr (Second t)
       /\ SecondNum t = (of_int (wrap64 (Minute t * 60)) + Second t)%float.
Proof.
  intros Ht HM HS.
  assert (E : ParseTime timeStr
              = match Atoi (default00 M) with
                | inl e => inl (BadMinute (default00 M) e)
                | inr min =>
                    match ParseFloat32 (default00 S) with
                    | inl e => inl (BadSecond (default00 S) e)
                    | inr sec => inr (mkTime 0 min sec)
                    end
                end).
  { unfold ParseTime. rewrite Ht.
    replace (is_empty (M ++ 58 :: S)) with false by (destruct M; reflexivity).
    rewrite Split_app, Split_no_sep by assumption. reflexivity. }
  split; [exact E|].
  intros t Hok. rewrite E in Hok.
  destruct (Atoi (default00 M)) as [e|min]; [discriminate|].
  destruct (ParseFloat32 (default00 S)) as [e|sec]; [discriminate|].
  injection Hok as <-. cbn [Hour Minute Second].
  repeat split. unfold SecondNum. cbn [Hour Minute Second].
  rewrite wrap64_0_l. reflexivity.
Qed.


(** ** The display string *)

Lemma digits_fuel_digits f : forall n acc,
  Forall (fun c => is_digit c = true) acc ->
  Forall (fun c => is_digit c = true) (digits_fuel f n acc).
Proof.
  induction f as [|f IH]; intros n acc H; [exact H|].
  cbn [digits_fuel].
  assert (H' : Forall (fun c => is_digit c = true) ((48 + n mod 10) :: acc))
    by (constructor; [apply is_digit_mod | exact H]).
  destruct (n <? 10); [exact H' | apply IH, H'].
Qed.

Lemma utoa_digits n : Forall (fun c => is_digit c = true) (utoa n).
Proof. apply digits_fuel_digits. constructor. Qed.

Lemma digits_no_colon s : Forall (fun c => is_digit c = true) s -> ~ In 58 s.
Proof.
  intros H Hin. rewrite Forall_forall in H. apply H in Hin. discriminate.
Qed.

Lemma itoa_no_colon n : ~ In 58 (itoa n).
Proof.
  unfold itoa. destruct (n <? 0).
  - intros [H|H]; [discriminate|]. revert H. apply digits_no_colon, utoa_digits.
  - apply digits_no_colon, utoa_digits.
Qed.

Lemma pad2_digits n : 0 <= n < 100 -> Forall (fun c => is_digit c = true) (pad2 n).
Proof.
  intro H. unfold pad2, is_digit.
  assert (0 <= n / 10 < 10)
    by (split; [apply Z.div_pos; lia | apply Z.div_lt_upper_bound; lia]).
  pose proof (Z.mod_pos_bound n 10 ltac:(lia)).
  repeat constructor; apply andb_true_iff; split; apply Z.leb_le; lia.
Qed.

(** A finite float prints as an optional sign, the integer part in plain
    decimal, a point and two decimals. *)
Lemma FormatFixed2_shape f :
  match Prim2SF f with
  | S754_nan => FormatFixed2 f = lit "NaN"
  | S754_infinity s => FormatFixed2 f = lit (if s then "-Inf" else "+Inf")%string
  | _ => exists (neg : bool) k d,
           0 <= d < 100
           /\ FormatFixed2 f = (if neg then [45] else []) ++ utoa k ++ [46] ++ pad2 d
  end.
Proof.
  unfold FormatFixed2. destruct (Prim2SF f) as [s|s| |s m e].
  - exists s, 0, 0. split; [lia | reflexivity].
  - destruct s; reflexivity.
  - reflexivity.
  - eexists s, _, _. split; [|reflexivity]. apply Z.mod_pos_bound. lia.
Qed.

Lemma FormatFixed2_no_colon f : ~ In 58 (FormatFixed2 f).
Proof.
  pose proof (FormatFixed2_shape f) as H.
  destruct (Prim2SF f) as [s|s| |s m e].
  - destruct H as (neg & k & d & Hd & ->).
    intro Hin. apply in_app_or in Hin as [Hin|Hin].
    + destruct neg; [destruct Hin as [?|[]]; discriminate | destruct Hin].
    + apply in_app_or in Hin as [Hin|Hin].
      * revert Hin. apply digits_no_colon, utoa_digits.
      * destruct Hin as [?|Hin]; [discriminate|].
        revert Hin. apply digits_no_colon, pad2_digits, Hd.
  - rewrite H. destruct s; cbn; intuition discriminate.
  - rewrite H. cbn; intuition discriminate.
  - destruct H as (neg & k & d & Hd & ->).
    intro Hin. apply in_app_or in Hin as [Hin|Hin].
    + destruct neg; [destruct Hin as [?|[]]; discriminate | destruct Hin].
    + apply in_app_or in Hin as [Hin|Hin].
      * revert Hin. apply digits_no_colon, utoa_digits.
      * destruct Hin as [?|Hin]; [discriminate|].
        revert Hin. apply digits_no_colon, pad2_digits, Hd.
Qed.

(** C9, refuted: one hour, five minutes and seven seconds are displayed
    as [1:5:7.00], and five minutes seven seconds as [5:7.00]: neither
    the minute nor the seconds are padded to two digits. *)
Lemma display_is_not_padded :
  Time_String (mkTime 1 5 7%float) = lit "1:5:7.00"
  /\ Time_String (mkTime 0 5 7%float) = lit "5:7.00"
  /\ ~ display_padded (mkTime 1 5 7%float)
  /\ ~ display_padded (mkTime 0 5 7%float).
Proof.
  split; [vm_compute; reflexivity|]. split; [vm_compute; reflexivity|].
  split.
  - unfold display_padded. cbn [Hour]. change (1 >? 0) with true. cbv iota.
    intros (h & m & s & H & Hm & Hs). vm_compute in H.
    injection H as <- <- <-. discriminate.
  - unfold display_padded. cbn [Hour]. change (0 >? 0) with false. cbv iota.
    intros (m & s & H & Hs). vm_compute in H.
    injection H as <- <-. discriminate.
Qed.

(** C9, amended: the display string is [H:M:S] when the hour is positive
    and [M:S] otherwise, where hour and minute are printed in plain
    decimal (a minute below ten is one digit) and the seconds with
    exactly two decimals. *)
Theorem display_fields t :
  Split 58 (Time_String t)
  = (if Hour t >? 0 then [itoa (Hour t)] else [])
    ++ [itoa (Minute t); FormatFixed2 (Second t)]
  /\ (0 <= Minute t < 10 -> itoa (Minute t) = [48 + Minute t])
  /\ match Prim2SF (Second t) with
     | S754_nan => FormatFixed2 (Second t) = lit "NaN"
     | S754_infinity s => FormatFixed2 (Second t) = lit (if s then "-Inf" else "+Inf")%string
     | _ => exists (neg : bool) k d,
              0 <= d < 100
              /\ FormatFixed2 (Second t)
                 = (if neg then [45] else []) ++ utoa k ++ [46] ++ pad2 d
     end.
Proof.
  split; [|split].
  - unfold Time_String. destruct (Hour t >? 0); cbn [app lit].
    + change (lit ":") with [58]. cbn [app].
      rewrite Split_app by apply itoa_no_colon.
      rewrite Split_app by apply itoa_no_colon.
      rewrite Split_no_sep by apply FormatFixed2_no_colon. reflexivity.
    + change (lit ":") with [58]. cbn [app].
      rewrite Split_app by apply itoa_no_colon.
      rewrite Split_no_sep by apply FormatFixed2_no_colon. reflexivity.
  - intro H. rewrite itoa_nonneg by lia. apply utoa_small, H.
  - apply FormatFixed2_shape.
Qed.

(** ** Concrete runs *)

(** C7: the empty action list passes the validator, and the compiler
    is the stage that rejects it, with the no-actions error; no earlier
    stage fails on an input without tokens. *)
Theorem empty_list_rejected_by_compiler_only :
  getActions [] = ([], None)
  /\ validateSegmentTimes [] = None
  /\ buildComplexFilter [] = ([], Some NoActions)
  /\ forall input,
       getTokens input = ([], None) -> compileFilterFile input = inl NoActions.
Proof.
  repeat split.
  intros input H. unfold compileFilterFile. rewrite H. reflexivity.
Qed.

(** C5: for the line [cut 1:32] the lexer gives two tokens, the action
    builder one Cut action starting at 92 seconds whose end is the zero
    Time, and the validator fails because the end comes before the start. *)
Theorem omitted_end_time :
  let input := mkReader [lit "cut 1:32"] false in
  let t := mkTime 0 1 32%float in
  let act := mkAction [mkToken (lit "cut") 1 1; mkToken (lit "1:32") 1 5]
                      CutVerb t Time0 Reason0 in
  getTokens input = (tokens act, None)
  /\ getActions (tokens act) = ([act], None)
  /\ SecondNum (start act) = 92%float
  /\ SecondNum (end_ act) = 0%float
  /\ Hour (end_ act) = 0 /\ Minute (end_ act) = 0 /\ Second (end_ act) = 0%float
  /\ validateSegmentTimes [act] = Some (EndBeforeStart 1 Time0 t)
  /\ compileFilterFile input = inl (EndBeforeStart 1 Time0 t).
Proof.
  cbv zeta. repeat split; vm_compute; reflexivity.
Qed.

Lemma comment_abandons_line_witness :
  lexLine 1 (lit "cut 1:00-2:00 " ++ 35 :: lit " trim intro") []
  = lexLine 1 (lit "cut 1:00-2:00 " ++ [35]) [].
Proof.
  apply (proj2 comment_abandons_line 1 (lit "cut 1:00-2:00 ") (lit " trim intro") []).
  vm_compute. intuition discriminate.
Defined.

Lemma lexer_four_tokens_per_line_witness :
  let input := mkReader [lit "cut 1:32-1:45 (a:b)"; lit "mute 2:19.2-2:19.85"] false in
  (forall l, (List.length (tokensOnLine l (fst (getTokens input))) <= 4)%nat)
  /\ (forall l n,
        snd (getActions (fst (getTokens input))) <> Some (UnexpectedTokenCount l n)).
Proof.
  apply lexer_four_tokens_per_line. vm_compute. reflexivity.
Defined.

(** * Further properties *)

(** ** More on the lexer *)

Lemma lexLines_error ls : forall n tkns failed,
  snd (lexLines n ls tkns failed) = if failed then Some ScanError else None.
Proof.
  induction ls as [|line ls IH]; intros n tkns failed; [reflexivity|].
  cbn [lexLines]. destruct (lexLine_line n line tkns) as (new & -> & _).
  apply IH.
Qed.

(** X1: the lexer's [unexpected state] error never occurs: the only error
    [getTokens] can return is the scanner's. *)
Theorem getTokens_only_scan_error input :
  snd (getTokens input) = if scanFailed input then Some ScanError else None.
Proof. apply lexLines_error. Qed.

(** ** More on the action builder *)

Lemma fillField_built act tkn act' :
  (tokens act <> [] -> supported act) ->
  fillField act tkn = inr act' ->
  supported act' /\ tokens act' = tokens act.
Proof.
  unfold fillField, supported. intros Hs.
  destruct (tokens act) as [|a [|b [|c [|d r]]]] eqn:E; intro H.
  - unfold verbs in H.
    destruct (str_eqb _ (lit "cut")); [injection H as <-; split; [left|]; reflexivity|].
    destruct (str_eqb _ (lit "mute")); [injection H as <-; split; [right|]; reflexivity|].
    discriminate.
  - destruct (ParseTime _); [discriminate|]. injection H as <-.
    split; [apply Hs; discriminate | reflexivity].
  - destruct (ParseTime _); [discriminate|]. injection H as <-.
    split; [apply Hs; discriminate | reflexivity].
  - destruct (ParseReason _); [discriminate|]. injection H as <-.
    split; [apply Hs; discriminate | reflexivity].
  - discriminate.
Qed.

Lemma flush_built actions act :
  Forall built actions ->
  (tokens act <> [] -> supported act) ->
  Forall built (flush actions act).
Proof.
  intros Ha Hs. unfold flush. destruct (tokens act) eqn:E; [exact Ha|].
  apply Forall_app. split; [exact Ha|]. constructor; [|constructor].
  unfold built. split; [rewrite E; discriminate | apply Hs; discriminate].
Qed.

Lemma buildActions_built tkns : forall actions line act,
  Forall built actions ->
  (tokens act <> [] -> supported act) ->
  Forall built (fst (buildActions tkns actions line act)).
Proof.
  induction tkns as [|tkn rest IH]; intros actions line act Ha Hs.
  - cbn. now apply flush_built.
  - cbn [buildActions].
    destruct (linePos tkn >? line).
    + destruct (fillField action0 tkn) as [e|act'] eqn:E.
      * cbn. now apply flush_built.
      * apply IH; [now apply flush_built|].
        intros _. unfold addToken. 
        apply fillField_built in E as [E _]; [exact E | intro H; now elim H].
    + destruct (fillField act tkn) as [e|act'] eqn:E.
      * exact Ha.
      * apply IH; [exact Ha|].
        intros _. apply fillField_built in E as [E _]; [exact E | exact Hs].
Qed.

Lemma checkAction_not_NoTokens actions k i :
  tokens (at_ actions k) <> [] -> checkAction actions k <> Some (NoTokens i).
Proof.
  intro H. unfold checkAction.
  destruct (tokens (at_ actions k)); [now elim H|].
  repeat match goal with
         | |- (if ?b then _ else _) <> _ => destruct b
         end; discriminate.
Qed.

Lemma validateFrom_not_NoTokens actions i n : forall k,
  (forall j, (j < List.length actions)%nat -> tokens (at_ actions j) <> []) ->
  (k + n <= List.length actions)%nat ->
  validateFrom actions k n <> Some (NoTokens i).
Proof.
  induction n as [|n IH]; intros k Ht Hk; [discriminate|].
  cbn [validateFrom].
  pose proof (checkAction_not_NoTokens actions k i (Ht k ltac:(lia))) as Hc.
  destruct (checkAction actions k) as [e|]; [exact Hc | apply IH; [exact Ht | lia]].
Qed.

Lemma built_at actions j :
  Forall built actions -> (j < List.length actions)%nat -> built (at_ actions j).
Proof.
  intros H Hj. rewrite Forall_forall in H. apply H. now apply nth_In.
Qed.

(** X2: every action [getActions] returns has at least one token and the
    verb [cut] or [mute]; so on its output the validator never reports an
    action without tokens and the compiler never reports an unsupported
    verb. *)
Theorem getActions_built tkns :
  Forall (fun a => tokens a <> [] /\ (verb a = CutVerb \/ verb a = MuteVerb))
         (fst (getActions tkns))
  /\ (forall i, validateSegmentTimes (fst (getActions tkns)) <> Some (NoTokens i))
  /\ (forall i v, snd (buildComplexFilter (fst (getActions tkns)))
                  <> Some (UnsupportedVerb i v)).
Proof.
  assert (H : Forall built (fst (getActions tkns))).
  { apply buildActions_built; [constructor|]. intro H. now elim H. }
  set (actions := fst (getActions tkns)) in *.
  split; [exact H|]. split.
  - intros i. apply validateFrom_not_NoTokens; [|lia].
    intros j Hj. apply (built_at actions j H Hj).
  - intros i v. unfold buildComplexFilter.
    destruct actions as [|a0 rest] eqn:Ea; [cbn; discriminate|].
    rewrite <- Ea in *.
    assert (Hs : Forall supported actions)
      by (eapply Forall_impl; [|exact H]; intros a [_ Ha]; exact Ha).
    destruct (buildStmts_from_loop actions 0 [headStmt actions] 0 Hs ltac:(lia))
      as (post & ->); [rewrite Ea; discriminate | reflexivity |].
    cbn. discriminate.
Qed.

(** ** More on the validator *)

Lemma checkAction_None actions i :
  checkAction actions i = None <-> valid_at actions i.
Proof.
  unfold checkAction, valid_at.
  destruct (tokens (at_ actions i)) as [|t r].
  - split; [discriminate | intros [H _]; now elim H].
  - destruct (SecondNum (end_ (at_ actions i)) <? SecondNum (start (at_ actions i)))%float.
    { split; [discriminate | intros (_ & H & _); discriminate]. }
    destruct (SecondNum (end_ (at_ actions i)) - SecondNum (start (at_ actions i))
              <? threshold)%float.
    { split; [discriminate | intros (_ & _ & H & _); discriminate]. }
    destruct (Nat.ltb_spec 0 i) as [Hi|Hi].
    + destruct (SecondNum (end_ (at_ actions i))
                <? SecondNum (start (at_ actions (i - 1))))%float.
      { split; [discriminate | intros (_ & _ & _ & H); destruct (H Hi); discriminate]. }
      destruct (SecondNum (start (at_ actions i)) - SecondNum (end_ (at_ actions (i - 1)))
                <? threshold)%float.
      { split; [discriminate | intros (_ & _ & _ & H); destruct (H Hi); discriminate]. }
      split; [|reflexivity]. intros _. repeat split; discriminate.
    + split; [|reflexivity]. intros _.
      split; [discriminate|]. split; [reflexivity|]. split; [reflexivity|]. intro; lia.
Qed.

Lemma validateFrom_None actions n : forall k,
  validateFrom actions k n = None
  <-> forall i, (k <= i < k + n)%nat -> checkAction actions i = None.
Proof.
  induction n as [|n IH]; intro k.
  - split; [intros _ i Hi; lia | reflexivity].
  - cbn [validateFrom]. destruct (checkAction actions k) as [e|] eqn:E.
    + split; [discriminate|]. intro H. rewrite H in E by lia. discriminate.
    + rewrite IH. split; intros H i Hi.
      * destruct (Nat.eq_dec i k) as [->|]; [exact E | apply H; lia].
      * apply H. lia.
Qed.

(** X3: the validator accepts a list exactly when every action has
    tokens, does not end before it starts, lasts at least [threshold],
    and, from the second action on, neither ends before the previous
    action starts nor starts less than [threshold] after its end. *)
Theorem validate_accepts_iff actions :
  validateSegmentTimes actions = None
  <-> forall i, (i < List.length actions)%nat -> valid_at actions i.
Proof.
  unfold validateSegmentTimes. rewrite validateFrom_None.
  split; intros H i Hi.
  - apply checkAction_None, H. lia.
  - apply checkAction_None, H. lia.
Qed.

(** X4: in a list the validator accepts, no action starts before the one
    in front of it ends, and none ends before it starts: accepted lists
    are in chronological order and free of overlap. *)
Theorem validated_in_order actions i :
  validateSegmentTimes actions = None ->
  (0 < i < List.length actions)%nat ->
  (SecondNum (start (at_ actions i)) <? SecondNum (end_ (at_ actions (i - 1))))%float = false
  /\ (SecondNum (end_ (at_ actions i)) <? SecondNum (start (at_ actions i)))%float = false
  /\ (SecondNum (end_ (at_ actions (i - 1)))
      <? SecondNum (start (at_ actions (i - 1))))%float = false.
Proof.
  intros Hv Hi. rewrite validate_accepts_iff in Hv.
  destruct (Hv i ltac:(lia)) as (_ & H1 & _ & H2).
  destruct (Hv (i - 1)%nat ltac:(lia)) as (_ & H3 & _).
  destruct (H2 ltac:(lia)) as [_ H4].
  split; [|split; assumption].
  destruct (SecondNum (start (at_ actions i))
            <? SecondNum (end_ (at_ actions (i - 1))))%float eqn:E; [|reflexivity].
  apply lt_sub_threshold in E. congruence.
Qed.

(** ** More on the parsers *)

Lemma Split_length sep s :
  List.length (Split sep s) = S (count_occ Z.eq_dec s sep).
Proof.
  induction s as [|c s IH]; [reflexivity|].
  cbn [Split count_occ].
  destruct (Z.eqb_spec c sep) as [->|Hne].
  - destruct (Z.eq_dec sep sep) as [_|H]; [|now elim H]. cbn [List.length]. now rewrite IH.
  - destruct (Z.eq_dec c sep) as [H|_]; [contradiction|].
    destruct (Split sep s) as [|p ps]; [discriminate IH|]. exact IH.
Qed.

Lemma count_occ_0_not_In s sep : count_occ Z.eq_dec s sep = 0%nat -> ~ In sep s.
Proof. intro H. now apply (count_occ_not_In Z.eq_dec). Qed.

(** A string with exactly one separator splits in two around it. *)
Lemma Split_one sep s :
  count_occ Z.eq_dec s sep = 1%nat ->
  exists a b, s = a ++ sep :: b /\ ~ In sep a /\ ~ In sep b /\ Split sep s = [a; b].
Proof.
  induction s as [|c s IH]; [discriminate|].
  cbn [count_occ]. destruct (Z.eq_dec c sep) as [->|Hne]; intro H.
  - injection H as H. apply count_occ_0_not_In in H.
    exists [], s.
    split; [reflexivity|]. split; [intros []|]. split; [exact H|].
    cbn [Split]. rewrite Z.eqb_refl. now rewrite Split_no_sep.
  - destruct (IH H) as (a & b & -> & Ha & Hb & E).
    assert (Hca : ~ In sep (c :: a))
      by (intros [Hc|Hin]; [congruence | contradiction]).
    exists (c :: a), b.
    split; [reflexivity|]. split; [exact Hca|]. split; [exact Hb|].
    cbn [Split]. destruct (Z.eqb_spec c sep); [contradiction|].
    rewrite E. reflexivity.
Qed.

Lemma TrimLeft_spaces s : Forall (fun c => IsSpace c = true) s -> TrimLeft s = [].
Proof.
  induction 1 as [|c s Hc _ IH]; [reflexivity|]. cbn [TrimLeft]. rewrite Hc. exact IH.
Qed.

Lemma TrimSpace_spaces s : Forall (fun c => IsSpace c = true) s -> TrimSpace s = [].
Proof.
  intro H. unfold TrimSpace, TrimRight. rewrite (TrimLeft_spaces s H). reflexivity.
Qed.

(** X5: [ParseTime] on a blank text gives the zero Time and no error; on
    a text with three colons or more it gives the bad-format error; and
    an empty minute field reads as minute 0. *)
Theorem ParseTime_edges timeStr :
  (Forall (fun c => IsSpace c = true) timeStr -> ParseTime timeStr = inr Time0)
  /\ ((3 <= colons (TrimSpace timeStr))%nat ->
      ParseTime timeStr = inl (BadTimeFormat (TrimSpace timeStr)))
  /\ (forall S t, TrimSpace timeStr = 58 :: S -> ~ In 58 S ->
        ParseTime timeStr = inr t -> Hour t = 0 /\ Minute t = 0).
Proof.
  split; [|split].
  - intro H. unfold ParseTime. now rewrite TrimSpace_spaces.
  - intro H. unfold ParseTime, colons in *.
    pose proof (Split_length 58 (TrimSpace timeStr)) as Hl.
    destruct (TrimSpace timeStr) as [|c r] eqn:E; [cbn in H; lia|].
    cbn [is_empty]. rewrite <- E in *.
    destruct (Split 58 (TrimSpace timeStr)) as [|p0 [|p1 [|p2 [|p3 ps]]]];
      cbn [List.length] in Hl; try lia.
    reflexivity.
  - intros S t Ht HS Hok.
    destruct (ParseTime_minute_second timeStr [] S Ht ltac:(auto) HS) as [_ H].
    destruct (H t Hok) as (Hh & Hm & _). split; [exact Hh|].
    change (Atoi (default00 [])) with (@inr NumError Z 0) in Hm. congruence.
Qed.

(** X6: [ParseReason] fails exactly on a text with two colons or more;
    with none the whole trimmed text is the category, with one the parts
    on either side are category and specifier, each trimmed. *)
Theorem ParseReason_by_colons reasonStr :
  let r := TrimSpace reasonStr in
  match colons r with
  | O => ParseReason reasonStr = inr (mkReason (TrimSpace r) [])
  | S O => exists a b, r = a ++ 58 :: b /\ ~ In 58 a /\ ~ In 58 b
                       /\ ParseReason reasonStr
                          = inr (mkReason (TrimSpace a) (TrimSpace b))
  | _ => ParseReason reasonStr = inl (BadReasonFormat r)
  end.
Proof.
  cbv zeta. unfold ParseReason, colons.
  destruct (count_occ Z.eq_dec (TrimSpace reasonStr) 58) as [|[|n]] eqn:E.
  - destruct (TrimSpace reasonStr) as [|c r] eqn:Er; [reflexivity|].
    cbn [is_empty]. rewrite Split_no_sep by (apply count_occ_0_not_In, E). reflexivity.
  - destruct (Split_one 58 _ E) as (a & b & Er & Ha & Hb & Es).
    exists a, b. repeat split; auto. rewrite Es.
    rewrite Er. destruct a; reflexivity.
  - pose proof (Split_length 58 (TrimSpace reasonStr)) as Hl. rewrite E in Hl.
    destruct (TrimSpace reasonStr) as [|c r] eqn:Er; [discriminate E|].
    cbn [is_empty]. rewrite <- Er in *.
    destruct (Split 58 (TrimSpace reasonStr)) as [|p0 [|p1 [|p2 ps]]];
      cbn [List.length] in Hl; try lia.
    reflexivity.
Qed.

(** ** More on the graph compiler *)

Lemma contribution_length actions i : (List.length (contribution actions i) <= 2)%nat.
Proof.
  unfold contribution.
  destruct (str_eqb _ CutVerb); [|cbn; lia].
  destruct (0 <? i)%nat, (_ && _); cbn; lia.
Qed.

Lemma flat_contribution_length actions n : forall i,
  (List.length (flat_map (contribution actions) (seq i n)) <= 2 * n)%nat.
Proof.
  induction n as [|n IH]; intro i; [cbn; lia|].
  cbn [seq flat_map]. rewrite length_app.
  pose proof (contribution_length actions i). specialize (IH (S i)). lia.
Qed.

Ltac same_state :=
  f_equal; first [reflexivity | apply f_equal2; [reflexivity | lia]].

Lemma compileAction_contribution actions i s c :
  supported (at_ actions i) ->
  0 <= c -> c + 4 < 2 ^ 63 ->
  compileAction actions i (s, c)
  = inr (s ++ chain c (contribution actions i),
         c + 2 * Z.of_nat (List.length (contribution actions i))).
Proof.
  intros Hs Hc Hb. unfold compileAction, contribution.
  destruct (str_eqb (verb (at_ actions i)) CutVerb) eqn:Ecut.
  - destruct (0 <? i)%nat, (_ && _).
    + rewrite splice_exact by lia. rewrite splice_exact by lia.
      rewrite <- app_assoc. cbn [chain app List.length]. same_state.
    + rewrite splice_exact by lia. cbn [app List.length]. same_state.
    + rewrite splice_exact by lia. cbn [app List.length]. same_state.
    + cbn [chain app List.length]. rewrite app_nil_r. same_state.
  - destruct Hs as [Hs|Hs].
    + apply str_eqb_eq in Hs. congruence.
    + apply str_eqb_eq in Hs. rewrite Hs.
      rewrite splice_exact by lia. cbn [List.length]. same_state.
Qed.

Lemma compileFrom_contribution actions n : forall i s c,
  (forall j, (i <= j < i + n)%nat -> supported (at_ actions j)) ->
  0 <= c -> c + 4 * Z.of_nat n < 2 ^ 63 ->
  compileFrom actions i n (s, c)
  = inr (s ++ chain c (flat_map (contribution actions) (seq i n)),
         c + 2 * Z.of_nat (List.length (flat_map (contribution actions) (seq i n)))).
Proof.
  induction n as [|n IH]; intros i s c Hs Hc Hb.
  - cbn [compileFrom seq flat_map chain List.length]. rewrite app_nil_r. same_state.
  - cbn [compileFrom seq flat_map].
    rewrite compileAction_contribution by (try apply Hs; lia).
    pose proof (contribution_length actions i) as Hl.
    rewrite IH by (try (intros; apply Hs); lia).
    rewrite chain_app, length_app, <- app_assoc. same_state.
Qed.

(** X7: the text compiled from a non-empty list of cuts and mutes, in
    closed form: the head, the spliced segments of the actions in order,
    numbered from 1 on, the tail and the final concatenation; it has
    three statements and two more for every spliced segment. *)
Theorem buildStmts_closed_form actions :
  actions <> [] ->
  Forall supported actions ->
  4 * Z.of_nat (List.length actions) + 2 < 2 ^ 63 ->
  let segs := segments actions (List.length actions) in
  buildStmts actions
  = (headStmt actions :: chain 0 segs
       ++ tailStmts (SecondString (end_ (at_ actions (List.length actions - 1))))
            (2 * Z.of_nat (List.length segs)),
     None)
  /\ List.length (fst (buildStmts actions)) = (3 + 2 * List.length segs)%nat.
Proof.
  intros Hne Hs Hb segs.
  assert (Hl : (List.length segs <= 2 * List.length actions)%nat)
    by apply flat_contribution_length.
  assert (E : buildStmts actions
              = (headStmt actions :: chain 0 segs
                   ++ tailStmts (SecondString (end_ (at_ actions (List.length actions - 1))))
                        (2 * Z.of_nat (List.length segs)),
                 None)).
  { rewrite buildStmts_nonempty by assumption. unfold loopState.
    rewrite compileFrom_contribution;
      [|intros; apply Forall_at; [assumption|lia] | lia | lia].
    fold (segments actions (List.length actions)). fold segs.
    cbv zeta. unfold tailStmts, prevVidSegment, prevAudSegment.
    replace (0 + 2 * Z.of_nat (List.length segs)) with (2 * Z.of_nat (List.length segs)) by lia.
    rewrite (wrap64_id (2 * Z.of_nat (List.length segs) + 1)) by lia.
    rewrite (wrap64_id (2 * Z.of_nat (List.length segs) + 1 + -1)) by lia.
    replace (2 * Z.of_nat (List.length segs) + 1 + -1)
      with (2 * Z.of_nat (List.length segs)) by lia.
    cbn [app]. reflexivity. }
  split; [exact E|].
  rewrite E. cbn [fst List.length]. rewrite length_app, chain_length.
  cbn [tailStmts List.length]. lia.
Qed.

(** X8: two consecutive mutes add their two muted segments and nothing
    else: no statement reads the media between the end of the first and
    the start of the second. *)
Theorem consecutive_mutes actions i :
  Forall supported actions ->
  (S i < List.length actions)%nat ->
  verb (at_ actions i) = MuteVerb ->
  verb (at_ actions (S i)) = MuteVerb ->
  4 * Z.of_nat (List.length actions) + 2 < 2 ^ 63 ->
  exists s c,
    loopState actions i = inr (s, c)
    /\ loopState actions (S (S i))
       = inr (s ++ chain c [(Silence, SecondString (start (at_ actions i)),
                                      SecondString (end_ (at_ actions i)));
                            (Silence, SecondString (start (at_ actions (S i))),
                                      SecondString (end_ (at_ actions (S i))))],
              c + 4).
Proof.
  intros Hs Hi Hv Hv' Hb.
  pose proof (compileFrom_contribution actions i 0 [headStmt actions] 0
                ltac:(intros; apply Forall_at; [assumption|lia]) ltac:(lia) ltac:(lia)) as H0.
  set (segs := flat_map (contribution actions) (seq 0 i)) in *.
  assert (Hl : (List.length segs <= 2 * i)%nat)
    by apply flat_contribution_length.
  eexists _, _. split; [exact H0|].
  unfold loopState.
  replace (S (S i)) with (i + 2)%nat by lia.
  rewrite compileFrom_add. fold (loopState actions i). unfold loopState at 1. rewrite H0.
  cbn [compileFrom Nat.add].
  rewrite compileAction_contribution by (try (apply Forall_at; [assumption|]); lia).
  assert (C1 : contribution actions i
               = [(Silence, SecondString (start (at_ actions i)),
                            SecondString (end_ (at_ actions i)))]).
  { unfold contribution. rewrite Hv. reflexivity. }
  rewrite C1. cbn [List.length].
  rewrite compileAction_contribution by (try (apply Forall_at; [assumption|]); lia).
  assert (C2 : contribution actions (S i)
               = [(Silence, SecondString (start (at_ actions (S i))),
                            SecondString (end_ (at_ actions (S i))))]).
  { unfold contribution. rewrite Hv'. reflexivity. }
  rewrite C2. cbn [List.length chain app]. rewrite <- app_assoc. cbn [app].
  same_state.
Qed.

(** X9: at the first action whose verb is neither [cut] nor [mute] the
    compiler stops: it returns the unsupported-verb error for that index
    together with the text built from the actions before it. *)
Theorem unsupported_verb_stops actions j :
  (j < List.length actions)%nat ->
  (forall k, (k < j)%nat -> supported (at_ actions k)) ->
  ~ supported (at_ actions j) ->
  exists s c,
    loopState actions j = inr (s, c)
    /\ buildStmts actions
       = (s, Some (UnsupportedVerb (Z.of_nat j) (verb (at_ actions j)))).
Proof.
  intros Hj Hs Hu.
  destruct (compileFrom_accumulated actions j 0 ([headStmt actions], 0))
    as ([s c] & m & Hloop & _ & _);
    [intros; apply Hs; lia | apply head_accumulated |].
  exists s, c. split; [exact Hloop|].
  rewrite buildStmts_nonempty by (destruct actions; [cbn in Hj; lia | discriminate]).
  unfold loopState in *.
  replace (List.length actions) with (j + S (List.length actions - S j))%nat by lia.
  rewrite compileFrom_add, Hloop. cbn [compileFrom Nat.add].
  unfold compileAction.
  destruct (str_eqb (verb (at_ actions j)) CutVerb) eqn:E1.
  { exfalso. apply Hu. left. now apply str_eqb_eq. }
  destruct (str_eqb (verb (at_ actions j)) MuteVerb) eqn:E2.
  { exfalso. apply Hu. right. now apply str_eqb_eq. }
  reflexivity.
Qed.

(** X10: when [getActions] reports no error, its actions hold exactly the
    tokens it was given, in order: none is lost, repeated or moved. *)
Lemma buildActions_tokens tkns : forall actions line act,
  snd (buildActions tkns actions line act) = None ->
  List.concat (map tokens (fst (buildActions tkns actions line act)))
  = List.concat (map tokens actions) ++ tokens act ++ tkns.
Proof.
  assert (Hflush : forall actions act,
             List.concat (map tokens (flush actions act))
             = List.concat (map tokens actions) ++ tokens act).
  { intros actions act. unfold flush. destruct (tokens act) eqn:E.
    - now rewrite app_nil_r.
    - rewrite map_app, concat_app. cbn. now rewrite E, app_nil_r. }
  induction tkns as [|tkn rest IH]; intros actions line act H.
  - cbn. now rewrite Hflush, app_nil_r.
  - cbn [buildActions] in *.
    destruct (linePos tkn >? line).
    + destruct (fillField action0 tkn) as [e|act'] eqn:E; [discriminate H|].
      rewrite IH by exact H. rewrite Hflush.
      pose proof (fillField_count action0 tkn ltac:(cbn; lia)) as Hc. rewrite E in Hc.
      unfold addToken. cbn [tokens]. rewrite Hc. cbn [tokens action0 app].
      rewrite <- !app_assoc. reflexivity.
    + destruct (fillField act tkn) as [e|act'] eqn:E; [discriminate H|].
      rewrite IH by exact H.
      assert (Hc : tokens act' = tokens act).
      { unfold fillField in E.
        destruct (tokens act) as [|a [|b [|c [|d r]]]] eqn:Et.
        - destruct (verbs _); [|discriminate]. injection E as <-. reflexivity.
        - destruct (ParseTime _); [discriminate|]. injection E as <-. reflexivity.
        - destruct (ParseTime _); [discriminate|]. injection E as <-. reflexivity.
        - destruct (ParseReason _); [discriminate|]. injection E as <-. reflexivity.
        - discriminate. }
      unfold addToken. cbn [tokens]. rewrite Hc.
      rewrite <- !app_assoc. reflexivity.
Qed.

Theorem getActions_keeps_tokens tkns :
  snd (getActions tkns) = None ->
  List.concat (map tokens (fst (getActions tkns))) = tkns.
Proof.
  intro H. unfold getActions in *. now rewrite buildActions_tokens.
Qed.

(** ** Not-a-number times *)

Lemma add_nan x : (x + nan)%float = nan.
Proof.
  apply Prim2SF_inj. rewrite add_spec.
  change (Prim2SF nan) with S754_nan. unfold SF64add, SFadd.
  destruct (Prim2SF x) as [[|]|[|]| |]; reflexivity.
Qed.

Lemma ltb_nan_r x : (x <? nan)%float = false.
Proof.
  rewrite ltb_spec. change (Prim2SF nan) with S754_nan.
  unfold SFltb, SFcompare. destruct (Prim2SF x); reflexivity.
Qed.

Lemma sub_nan_r x : (x - nan)%float = nan.
Proof.
  apply Prim2SF_inj. rewrite sub_spec.
  change (Prim2SF nan) with S754_nan. unfold SF64sub, SFsub.
  destruct (Prim2SF x) as [[|]|[|]| |]; reflexivity.
Qed.

Lemma sub_nan_l x : (nan - x)%float = nan.
Proof.
  apply Prim2SF_inj. rewrite sub_spec.
  change (Prim2SF nan) with S754_nan. reflexivity.
Qed.

Lemma ltb_nan_l x : (nan <? x)%float = false.
Proof. rewrite ltb_spec. change (Prim2SF nan) with S754_nan. reflexivity. Qed.

(** X11: the validator accepts every list of actions with tokens whose
    start seconds are all NaN, whatever their end times and order: each
    of its comparisons involves a start time, and no comparison with NaN
    holds. *)
Theorem nan_starts_pass_validation actions :
  (forall i, (i < List.length actions)%nat ->
     tokens (at_ actions i) <> [] /\ Second (start (at_ actions i)) = nan) ->
  validateSegmentTimes actions = None.
Proof.
  intro H. apply validate_accepts_iff. intros i Hi.
  destruct (H i Hi) as [Ht Hn].
  assert (Hs : forall j, (j < List.length actions)%nat ->
                         SecondNum (start (at_ actions j)) = nan).
  { intros j Hj. destruct (H j Hj) as [_ E]. unfold SecondNum. rewrite E. apply add_nan. }
  unfold valid_at. rewrite (Hs i Hi).
  split; [exact Ht|]. split; [apply ltb_nan_r|].
  split; [rewrite sub_nan_r; apply ltb_nan_l|].
  intro Hi0. rewrite (Hs (i - 1)%nat) by lia.
  split; [apply ltb_nan_r | rewrite sub_nan_l; apply ltb_nan_l].
Qed.

(** ** Trimming *)

Lemma TrimLeft_clean c r : IsSpace c = false -> TrimLeft (c :: r) = c :: r.
Proof. intro H. cbn [TrimLeft]. now rewrite H. Qed.


Lemma TrimLeft_head s :
  TrimLeft s = [] \/ exists c r, TrimLeft s = c :: r /\ IsSpace c = false.
Proof.
  induction s as [|a s IH]; [now left|].
  cbn [TrimLeft]. destruct (IsSpace a) eqn:E; [exact IH|].
  right. now exists a, s.
Qed.


Lemma TrimLeft_idempotent s : TrimLeft (TrimLeft s) = TrimLeft s.
Proof.
  destruct (TrimLeft_head s) as [->|(c & r & -> & Hc)]; [reflexivity|].
  now apply TrimLeft_clean.
Qed.


(** ** Tokens and their positions *)

Section Positions.

Variable lineNum : Z.
Variable line : list rune.



End Positions.


(** ** Lexing a well-formed line *)

Section Fields.

Variable lineNum : Z.

Lemma lexRune_plain field ch charNum tkns tkn :
  (ch =? 35) = false -> ends_field field ch = false ->
  lexRune lineNum charNum ch tkns tkn field = accumulate tkns tkn field charNum ch.
Proof.
  unfold lexRune, ends_field. intros -> H.
  destruct (String.eqb field "verb"); [rewrite H; reflexivity|].
  destruct (String.eqb field "start"); [rewrite H; reflexivity|].
  destruct (String.eqb field "end"); [rewrite H; reflexivity|].
  destruct (String.eqb field "reason"); [rewrite H; reflexivity|].
  discriminate.
Qed.

(** Over a plain run the lexer skips the leading spaces of an empty
    token and appends everything else. *)
Lemma lexRunes_plain field blk : forall rest charNum tkns tkn,
  plain field blk ->
  exists p,
    lexRunes lineNum charNum (blk ++ rest) tkns tkn field
    = lexRunes lineNum (charNum + Z.of_nat (List.length blk)) rest tkns
        (mkToken (if is_empty (val tkn) then TrimLeft blk else val tkn ++ blk)
                 (linePos tkn) p)
        field
    /\ (val tkn = [] -> TrimLeft blk = [] -> p = charPos tkn).
Proof.
  induction blk as [|ch blk IH]; intros rest charNum tkns tkn Hp.
  - exists (charPos tkn). cbn [app List.length TrimLeft]. rewrite Z.add_0_r, app_nil_r.
    split; [|reflexivity].
    destruct tkn as [v l c]. cbn [val linePos charPos]. destruct v; reflexivity.
  - inversion Hp as [|? ? [Hh He] Hp']; subst.
    cbn [app lexRunes]. rewrite lexRune_plain by assumption. unfold accumulate.
    destruct (is_empty (val tkn) && IsSpace ch) eqn:E.
    + apply andb_true_iff in E as [Ev Es].
      destruct (IH rest (charNum + 1) tkns tkn Hp') as (p & -> & Hpos).
      exists p. rewrite Ev. cbn [TrimLeft]. rewrite Es.
      split; [|exact Hpos].
      f_equal. cbn [List.length]. lia.
    + destruct (IH rest (charNum + 1) tkns
                  (mkToken (val tkn ++ [ch]) (linePos tkn)
                     (if charPos tkn =? -1 then charNum + 1 else charPos tkn)) Hp')
        as (p & -> & _).
      exists p. cbn [val linePos].
      replace (is_empty (val tkn ++ [ch])) with false by (destruct (val tkn); reflexivity).
      split.
      * f_equal; [cbn [List.length]; lia|]. f_equal.
        destruct (val tkn) as [|c r] eqn:Ev.
        -- cbn [is_empty andb] in E. cbn [TrimLeft app]. now rewrite E.
        -- cbn [is_empty]. now rewrite <- app_assoc.
      * intros Ev Ht. exfalso. rewrite Ev in E. cbn [is_empty andb] in E.
        cbn [TrimLeft] in Ht. rewrite E in Ht. discriminate.
Qed.

Lemma lexRunes_skip pre : forall rest charNum tkns tkn,
  Forall (fun c => IsSpace c = true) pre ->
  val tkn = [] ->
  lexRunes lineNum charNum (pre ++ rest) tkns tkn "verb"
  = lexRunes lineNum (charNum + Z.of_nat (List.length pre)) rest tkns tkn "verb".
Proof.
  induction pre as [|ch pre IH]; intros rest charNum tkns tkn Hs Hv.
  - cbn [app List.length]. now rewrite Z.add_0_r.
  - inversion Hs as [|? ? Hc Hs']; subst.
    cbn [app lexRunes]. unfold lexRune.
    replace (ch =? 35) with false
      by (symmetry; apply Z.eqb_neq; intros ->; discriminate Hc).
    cbn [String.eqb Ascii.eqb Bool.eqb]. rewrite Hv. cbn [is_empty negb].
    rewrite andb_false_r. unfold accumulate. rewrite Hv, Hc. cbn [is_empty andb].
    rewrite IH by assumption. f_equal. cbn [List.length]. lia.
Qed.

(** X14: a line of spaces only, or of spaces followed by a comment, adds
    no token. *)
Theorem blank_and_comment_lines pre rest tkns :
  Forall (fun c => IsSpace c = true) pre ->
  lexLine lineNum pre tkns = (tkns, None)
  /\ lexLine lineNum (pre ++ 35 :: rest) tkns = (tkns, None).
Proof.
  intro Hs. unfold lexLine. split.
  - rewrite <- (app_nil_r pre). now rewrite lexRunes_skip.
  - now rewrite lexRunes_skip.
Qed.

Lemma lexRune_ends field ch charNum tkns tkn :
  field = "verb"%string \/ field = "start"%string \/ field = "end"%string ->
  (ch =? 35) = false -> ends_field field ch = true -> val tkn <> [] ->
  lexRune lineNum charNum ch tkns tkn field
  = Next (saveTkn tkns tkn) (freshToken lineNum) (next_field field).
Proof.
  intros Hf Hh He Hv. unfold lexRune. rewrite Hh.
  assert (Hne : negb (is_empty (val tkn)) = true)
    by (destruct (val tkn); [now elim Hv | reflexivity]).
  destruct Hf as [-> | [-> | ->]]; unfold ends_field, next_field in *;
    cbn [String.eqb Ascii.eqb Bool.eqb] in *; rewrite He, Hne; reflexivity.
Qed.

(** A whole field: a plain run with content, then the rune that ends the
    field.  The run, without its leading spaces, becomes a token. *)
Lemma lexRunes_field field blk t rest charNum tkns tkn :
  field = "verb"%string \/ field = "start"%string \/ field = "end"%string ->
  plain field blk -> TrimLeft blk <> [] ->
  (t =? 35) = false -> ends_field field t = true ->
  val tkn = [] ->
  exists c p,
    lexRunes lineNum charNum (blk ++ t :: rest) tkns tkn field
    = lexRunes lineNum c rest
        (tkns ++ [mkToken (TrimSpace blk) (linePos tkn) p])
        (freshToken lineNum) (next_field field).
Proof.
  intros Hf Hp Hne Ht He Hv.
  destruct (lexRunes_plain field blk (t :: rest) charNum tkns tkn Hp) as (p & -> & _).
  rewrite Hv. cbn [is_empty lexRunes].
  rewrite lexRune_ends by (cbn [val]; assumption).
  unfold saveTkn. cbn [val linePos charPos].
  eexists _, p. do 4 f_equal.
  unfold TrimSpace. now rewrite TrimLeft_idempotent.
Qed.

Lemma nospace_plain_verb v :
  Forall (fun c => IsSpace c = false /\ (c =? 35) = false) v -> plain "verb" v.
Proof.
  intro H. unfold plain. eapply Forall_impl; [|exact H].
  cbn beta. intros c [Hs Hh]. split; [exact Hh | exact Hs].
Qed.

Lemma lexLine_verb_start sp0 v w s tail tkns :
  Forall (fun c => IsSpace c = true) sp0 ->
  Forall (fun c => IsSpace c = false /\ (c =? 35) = false) v -> v <> [] ->
  IsSpace w = true ->
  plain "start" s -> TrimLeft s <> [] ->
  exists c p1 p2,
    lexLine lineNum (sp0 ++ v ++ w :: s ++ 45 :: tail) tkns
    = lexRunes lineNum c tail
        ((tkns ++ [mkToken (TrimSpace v) lineNum p1])
           ++ [mkToken (TrimSpace s) lineNum p2])
        (freshToken lineNum) "end".
Proof.
  intros Hsp Hv Hvne Hw Hs Hsne.
  assert (Hw35 : (w =? 35) = false)
    by (apply Z.eqb_neq; intros ->; discriminate Hw).
  assert (Hvt : TrimLeft v <> []).
  { destruct v as [|c v']; [now elim Hvne|]. inversion Hv as [|? ? [Hc _] _]; subst.
    rewrite TrimLeft_clean by exact Hc. discriminate. }
  destruct (lexRunes_field "verb" v w (s ++ 45 :: tail)
              (0 + Z.of_nat (List.length sp0)) tkns (freshToken lineNum))
    as (c1 & p1 & E1); auto using nospace_plain_verb.
  destruct (lexRunes_field "start" s 45 tail c1
              (tkns ++ [mkToken (TrimSpace v) (linePos (freshToken lineNum)) p1])
              (freshToken lineNum))
    as (c2 & p2 & E2); auto.
  exists c2, p1, p2. unfold lexLine.
  rewrite lexRunes_skip by (assumption || reflexivity).
  etransitivity; [exact E1 | exact E2].
Qed.

(** X15: lexing a line [verb start-end (reason)]: with a verb free of
    spaces, a start free of [-], an end free of [(] and a reason free of
    [)], none of them holding a [#] and the first three not blank, the
    lexer returns the four fields, trimmed, as the values of four tokens;
    what follows the closing parenthesis is ignored.  Without a reason
    the same line gives the first three tokens. *)
Theorem lexLine_fields sp0 v w s e r junk tkns :
  Forall (fun c => IsSpace c = true) sp0 ->
  Forall (fun c => IsSpace c = false /\ (c =? 35) = false) v -> v <> [] ->
  IsSpace w = true ->
  plain "start" s -> TrimLeft s <> [] ->
  plain "end" e -> TrimLeft e <> [] ->
  plain "reason" r ->
  (map val (fst (lexLine lineNum
                   (sp0 ++ v ++ w :: s ++ 45 :: e ++ 40 :: r ++ 41 :: junk) tkns))
   = map val tkns ++ [TrimSpace v; TrimSpace s; TrimSpace e; TrimSpace r])
  /\ (map val (fst (lexLine lineNum (sp0 ++ v ++ w :: s ++ 45 :: e) tkns))
      = map val tkns ++ [TrimSpace v; TrimSpace s; TrimSpace e]).
Proof.
  intros Hsp Hv Hvne Hw Hs Hsne He Hene Hr.
  assert (Hpre : forall tail, exists c p1 p2,
            lexLine lineNum (sp0 ++ v ++ w :: s ++ 45 :: tail) tkns
            = lexRunes lineNum c tail
                ((tkns ++ [mkToken (TrimSpace v) lineNum p1])
                   ++ [mkToken (TrimSpace s) lineNum p2])
                (freshToken lineNum) "end")
    by (intro tail; now apply lexLine_verb_start).
  split.
  - destruct (Hpre (e ++ 40 :: r ++ 41 :: junk)) as (c & p1 & p2 & ->).
    destruct (lexRunes_field "end" e 40 (r ++ 41 :: junk) c
                ((tkns ++ [mkToken (TrimSpace v) lineNum p1])
                   ++ [mkToken (TrimSpace s) lineNum p2])
                (freshToken lineNum))
      as (c3 & p3 & ->); auto.
    change (next_field "end") with "reason"%string.
    match goal with
    | |- context [lexRunes lineNum c3 (r ++ 41 :: junk) ?t ?k "reason"] =>
        destruct (lexRunes_plain "reason" r (41 :: junk) c3 t k Hr) as (p4 & -> & _)
    end.
    cbn [lexRunes lexRune val freshToken is_empty linePos]. unfold lexRune.
    cbn [Z.eqb Pos.eqb String.eqb Ascii.eqb Bool.eqb fst]. unfold saveTkn.
    rewrite !map_app. cbn [map val]. rewrite <- !app_assoc. cbn [app].
    do 5 f_equal. unfold TrimSpace. now rewrite TrimLeft_idempotent.
  - destruct (Hpre e) as (c & p1 & p2 & ->).
    match goal with
    | |- context [lexRunes lineNum c e ?t ?k "end"] =>
        rewrite <- (app_nil_r e);
        destruct (lexRunes_plain "end" e [] c t k He) as (p3 & -> & _)
    end.
    cbn [lexRunes val freshToken is_empty linePos fst].
    replace (negb (is_empty (TrimLeft e))) with true
      by (destruct (TrimLeft e) eqn:Ee; [congruence | reflexivity]).
    unfold saveTkn. rewrite !map_app. cbn [map val]. rewrite <- !app_assoc. cbn [app].
    rewrite app_nil_r. do 4 f_equal. unfold TrimSpace. now rewrite TrimLeft_idempotent.
Qed.

(** X16: a comment right after the end time costs the end token: the
    line [verb start-end # ...] gives two tokens only, verb and start. *)
Theorem comment_after_end_drops_end sp0 v w s e junk tkns :
  Forall (fun c => IsSpace c = true) sp0 ->
  Forall (fun c => IsSpace c = false /\ (c =? 35) = false) v -> v <> [] ->
  IsSpace w = true ->
  plain "start" s -> TrimLeft s <> [] ->
  plain "end" e ->
  map val (fst (lexLine lineNum (sp0 ++ v ++ w :: s ++ 45 :: e ++ 35 :: junk) tkns))
  = map val tkns ++ [TrimSpace v; TrimSpace s].
Proof.
  intros Hsp Hv Hvne Hw Hs Hsne He.
  destruct (lexLine_verb_start sp0 v w s (e ++ 35 :: junk) tkns)
    as (c & p1 & p2 & ->); auto.
  match goal with
  | |- context [lexRunes lineNum c (e ++ 35 :: junk) ?t ?k "end"] =>
      destruct (lexRunes_plain "end" e (35 :: junk) c t k He) as (p3 & -> & _)
  end.
  cbn [lexRunes fst]. unfold lexRune. cbn [Z.eqb Pos.eqb fst].
  rewrite !map_app. cbn [map val]. rewrite <- !app_assoc. reflexivity.
Qed.

End Fields.

(** ** The pipeline *)

(** X17: the pipeline returns a text exactly when the scanner did not
    fail, the action builder and the validator reported no error, and
    there is at least one action; the text is then the compiler's. *)
Theorem pipeline_succeeds_iff input :
  let tkns := fst (getTokens input) in
  let actions := fst (getActions tkns) in
  (exists s, compileFilterFile input = inr s)
  <-> (scanFailed input = false
       /\ snd (getActions tkns) = None
       /\ validateSegmentTimes actions = None
       /\ actions <> []).
Proof.
  cbv zeta. unfold compileFilterFile.
  pose proof (getTokens_only_scan_error input) as Ht.
  destruct (getTokens input) as [tkns et]. cbn [fst snd] in *.
  pose proof (getActions_built tkns) as (Hb & _ & Hu).
  destruct (getActions tkns) as [actions ea]. cbn [fst snd] in *.
  destruct (scanFailed input); subst et.
  { split; [intros [s H]; discriminate | intros [H _]; discriminate]. }
  destruct ea as [e|].
  { split; [intros [s H]; discriminate | intros (_ & H & _); discriminate]. }
  destruct (validateSegmentTimes actions) as [e|].
  { split; [intros [s H]; discriminate | intros (_ & _ & H & _); discriminate]. }
  destruct actions as [|a0 rest].
  { cbn. split; [intros [s H]; discriminate | intros (_ & _ & _ & H); now elim H]. }
  assert (Hs : Forall supported (a0 :: rest))
    by (eapply Forall_impl; [|exact Hb]; intros a [_ Ha]; exact Ha).
  unfold buildComplexFilter.
  destruct (buildStmts_from_loop (a0 :: rest) 0 [headStmt (a0 :: rest)] 0 Hs ltac:(lia))
    as (post & ->); [discriminate | reflexivity |].
  split; [intros _; repeat split; discriminate | intros _; eexists; reflexivity].
Qed.

(** ** Token order *)

Lemma chunks_sorted n tkns :
  chunks n tkns -> StronglySorted (fun a b => linePos a <= linePos b) tkns.
Proof.
  induction 1 as [|n l t g rest Hnl Hlen Hf Hc IH]; [constructor|].
  apply chunks_ge in Hc.
  assert (Hall : forall x, In x ((t :: g) ++ rest) -> l <= linePos x).
  { intros x Hx. apply in_app_or in Hx as [Hx|Hx].
    - rewrite Forall_forall in Hf. specialize (Hf x Hx). unfold on_line in Hf. lia.
    - rewrite Forall_forall in Hc. specialize (Hc x Hx). cbn beta in Hc. lia. }
  revert Hf Hall. generalize (t :: g). intros grp.
  induction grp as [|a grp IHg]; intros Hf Hall; [exact IH|].
  cbn [app]. inversion Hf as [|? ? Ha Hg]; subst. constructor.
  - apply IHg; [exact Hg|]. intros x Hx. apply Hall. now right.
  - apply Forall_forall. intros x Hx. unfold on_line in Ha.
    rewrite Ha. apply Hall. now right.
Qed.

(** X18: the tokens the lexer returns are in the order of their lines. *)
Theorem tokens_in_line_order input :
  Z.of_nat (List.length (lines input)) < 2 ^ 63 - 1 ->
  StronglySorted (fun a b => linePos a <= linePos b) (fst (getTokens input)).
Proof.
  intro Hb. unfold getTokens.
  destruct (lexLines_chunks (lines input) 1 [] (scanFailed input)) as (out & e & -> & Hc & _);
    try lia.
  cbn [fst app]. eapply chunks_sorted, Hc.
Qed.



(** ** Instances *)

Lemma cut_then_mute_supported : Forall supported cut_then_mute.
Proof.
  vm_compute.
  constructor; [left; reflexivity|]. constructor; [right; reflexivity|]. constructor.
Defined.

Lemma two_cuts_supported : Forall supported two_cuts.
Proof.
  vm_compute.
  constructor; [left; reflexivity|]. constructor; [left; reflexivity|]. constructor.
Defined.

Lemma start_before_previous_end_witness :
  exists l1 l2,
    validateSegmentTimes scenario_D = Some (OutOfOrder l1 l2)
    \/ validateSegmentTimes scenario_D = Some (OverlapOrClose l1 l2).
Proof.
  assert (Hlen : List.length scenario_D = 2%nat) by (vm_compute; reflexivity).
  apply (start_before_previous_end scenario_D 1).
  - rewrite Hlen. lia.
  - rewrite Hlen. intros j Hj.
    destruct j as [|[|j]]; [vm_compute; reflexivity | vm_compute; reflexivity | lia].
  - vm_compute. reflexivity.
Defined.

Lemma adjacent_cuts_emit_gap_once_witness :
  exists s c,
    loopState two_cuts 0 = inr (s, c)
    /\ loopState two_cuts 2
       = inr (s ++ chain c [(Original, lit "20.00", lit "25.00")], c + 2).
Proof.
  assert (Hlen : List.length two_cuts = 2%nat) by (vm_compute; reflexivity).
  destruct (adjacent_cuts_emit_gap_once two_cuts 0) as (s & c & H0 & _ & H2).
  - exact two_cuts_supported.
  - rewrite Hlen. lia.
  - vm_compute. reflexivity.
  - vm_compute. reflexivity.
  - rewrite Hlen. lia.
  - exists s, c. split; [exact H0|]. rewrite H2. reflexivity.
Defined.

Lemma mute_contributes_muted_segment_witness :
  exists s0 acc c post,
    loopState cut_then_mute 1 = inr (s0 ++ [acc], c)
    /\ buildStmts cut_then_mute
       = (s0 ++ [acc;
                 Seg Silence (lit "139.20") (lit "139.85") (vidSegment (wrap64 (c + 1)))
                     (lit "139.20") (lit "139.85") (audSegment (wrap64 (c + 1)));
                 Concat (vidSegment c) (vidSegment (wrap64 (c + 1)))
                        (vidSegment (wrap64 (wrap64 (c + 1) + 1)))
                        (audSegment c) (audSegment (wrap64 (c + 1)))
                        (audSegment (wrap64 (wrap64 (c + 1) + 1)))] ++ post,
          None).
Proof.
  assert (Hlen : List.length cut_then_mute = 2%nat) by (vm_compute; reflexivity).
  destruct (mute_contributes_muted_segment cut_then_mute 1)
    as (s0 & acc & c & post & H1 & _ & _ & _ & H2 & _).
  - exact cut_then_mute_supported.
  - rewrite Hlen. lia.
  - vm_compute. reflexivity.
  - exists s0, acc, c, post. split; [exact H1 | exact H2].
Defined.

Lemma ParseTime_minute_second_witness :
  ParseTime (lit "2:19.2")
  = match Atoi (default00 (lit "2")) with
    | inl e => inl (BadMinute (default00 (lit "2")) e)
    | inr min =>
        match ParseFloat32 (default00 (lit "19.2")) with
        | inl e => inl (BadSecond (default00 (lit "19.2")) e)
        | inr sec => inr (mkTime 0 min sec)
        end
    end.
Proof.
  apply (ParseTime_minute_second (lit "2:19.2") (lit "2") (lit "19.2")).
  - vm_compute. reflexivity.
  - vm_compute. intuition discriminate.
  - vm_compute. intuition discriminate.
Defined.

Lemma segment_labels_chain_witness :
  exists out, buildStmts cut_then_mute = (out, None).
Proof.
  assert (Hlen : List.length cut_then_mute = 2%nat) by (vm_compute; reflexivity).
  destruct (segment_labels_chain cut_then_mute) as (out & H & _).
  - vm_compute. discriminate.
  - exact cut_then_mute_supported.
  - rewrite Hlen. vm_compute. reflexivity.
  - exists out. exact H.
Defined.

Lemma display_fields_witness : itoa 5 = [48 + 5].
Proof.
  apply (proj1 (proj2 (display_fields (mkTime 1 5 7%float)))).
  cbn [Minute]. lia.
Defined.

Lemma validated_in_order_witness :
  (SecondNum (start (at_ cut_then_mute 1))
   <? SecondNum (end_ (at_ cut_then_mute (1 - 1))))%float = false.
Proof.
  apply (validated_in_order cut_then_mute 1).
  - vm_compute. reflexivity.
  - assert (Hlen : List.length cut_then_mute = 2%nat) by (vm_compute; reflexivity).
    rewrite Hlen. lia.
Defined.

Lemma buildStmts_closed_form_witness :
  List.length (fst (buildStmts cut_then_mute))
  = (3 + 2 * List.length (segments cut_then_mute (List.length cut_then_mute)))%nat.
Proof.
  assert (Hlen : List.length cut_then_mute = 2%nat) by (vm_compute; reflexivity).
  apply (buildStmts_closed_form cut_then_mute).
  - vm_compute. discriminate.
  - exact cut_then_mute_supported.
  - rewrite Hlen. vm_compute. reflexivity.
Defined.

Lemma two_mutes_supported : Forall supported two_mutes.
Proof.
  vm_compute.
  constructor; [right; reflexivity|]. constructor; [right; reflexivity|]. constructor.
Defined.

Lemma consecutive_mutes_witness :
  exists s c,
    loopState two_mutes 0 = inr (s, c)
    /\ loopState two_mutes 2
       = inr (s ++ chain c [(Silence, SecondString (start (at_ two_mutes 0)),
                                      SecondString (end_ (at_ two_mutes 0)));
                            (Silence, SecondString (start (at_ two_mutes 1)),
                                      SecondString (end_ (at_ two_mutes 1)))],
              c + 4).
Proof.
  assert (Hlen : List.length two_mutes = 2%nat) by (vm_compute; reflexivity).
  apply (consecutive_mutes two_mutes 0).
  - exact two_mutes_supported.
  - rewrite Hlen. lia.
  - vm_compute. reflexivity.
  - vm_compute. reflexivity.
  - rewrite Hlen. vm_compute. reflexivity.
Defined.

Lemma unsupported_verb_stops_witness :
  exists s c,
    loopState [action0] 0 = inr (s, c)
    /\ buildStmts [action0] = (s, Some (UnsupportedVerb 0 (verb (at_ [action0] 0)))).
Proof.
  apply (unsupported_verb_stops [action0] 0).
  - cbn. lia.
  - intros k Hk. lia.
  - intros [H|H]; vm_compute in H; discriminate H.
Defined.

Lemma getActions_keeps_tokens_witness :
  List.concat (map tokens (fst (getActions (fst (getTokens readme_input)))))
  = fst (getTokens readme_input).
Proof.
  apply getActions_keeps_tokens. vm_compute. reflexivity.
Defined.

Lemma nan_starts_pass_validation_witness : validateSegmentTimes nan_cut = None.
Proof.
  apply nan_starts_pass_validation.
  assert (Hlen : List.length nan_cut = 1%nat) by (vm_compute; reflexivity).
  rewrite Hlen. intros i Hi. destruct i as [|i]; [|lia].
  split; [vm_compute; discriminate | vm_compute; reflexivity].
Defined.



Lemma blank_and_comment_lines_witness :
  lexLine 3 (lit "  ") [] = ([], None)
  /\ lexLine 3 (lit "  " ++ 35 :: lit " a comment") [] = ([], None).
Proof.
  apply blank_and_comment_lines. repeat constructor.
Defined.

Lemma lexLine_fields_witness :
  map val (fst (lexLine 2 ([] ++ lit "mute" ++ 32 :: lit "2:19.2" ++ 45 :: lit "2:19.85 "
                             ++ 40 :: lit "profanity:f-word" ++ 41 :: []) []))
  = map val [] ++ [TrimSpace (lit "mute"); TrimSpace (lit "2:19.2");
                   TrimSpace (lit "2:19.85 "); TrimSpace (lit "profanity:f-word")].
Proof.
  apply (lexLine_fields 2 [] (lit "mute") 32 (lit "2:19.2") (lit "2:19.85 ")
           (lit "profanity:f-word") [] []).
  - constructor.
  - vm_compute. repeat constructor.
  - discriminate.
  - reflexivity.
  - vm_compute. repeat constructor.
  - vm_compute. discriminate.
  - vm_compute. repeat constructor.
  - vm_compute. discriminate.
  - vm_compute. repeat constructor.
Defined.

Lemma comment_after_end_drops_end_witness :
  map val (fst (lexLine 1 ([] ++ lit "cut" ++ 32 :: lit "1:00" ++ 45 :: lit "2:00 "
                             ++ 35 :: lit " trim intro") []))
  = map val [] ++ [TrimSpace (lit "cut"); TrimSpace (lit "1:00")].
Proof.
  apply (comment_after_end_drops_end 1 [] (lit "cut") 32 (lit "1:00") (lit "2:00 ")
           (lit " trim intro") []).
  - constructor.
  - vm_compute. repeat constructor.
  - discriminate.
  - reflexivity.
  - vm_compute. repeat constructor.
  - vm_compute. discriminate.
  - vm_compute. repeat constructor.
Defined.

Lemma tokens_in_line_order_witness :
  StronglySorted (fun a b => linePos a <= linePos b) (fst (getTokens readme_input)).
Proof.
  apply tokens_in_line_order. vm_compute. reflexivity.
Defined.
